(** * Cuckoo filter: bucket table and hash primitives

    A shallow embedding of [cuckoo_table.hpp] and [hash_function.hpp].

    Conventions.
    - [uint32_t] and [uint64_t] values are [Z]; every wrap-around of the
      C++ arithmetic is written out as a [mod].
    - [size_t] bucket and slot indices are [nat].
    - Bucket storage is a flat list of bytes, as [Bucket *buckets] is.
    - [double] arithmetic is IEEE-754 binary64, taken from the standard
      library's [SpecFloat] (precision 53, maximal exponent 1024). *)

From Stdlib Require Import ZArith Lia List Bool Arith.
From Stdlib Require Import Floats.SpecFloat.
From coqutil Require Import Byte Word.LittleEndianList Z.bitblast.
Import ListNotations.

Local Open Scope Z_scope.

(* ===================================================================== *)
(** * Definitions                                                         *)
(* ===================================================================== *)

(** ** Hash and fingerprint derivation ([hash_function.hpp]) *)

Module HashFunction.

Definition MURMUR_CONST : Z := 0x5bd1e995.

(** [index] is a [size_t], [fp] a [uint32_t]: the product wraps at 32
    bits, and so does the returned [uint32_t]. *)
Definition fingerprintComplement (index fp : Z) : Z :=
  Z.lxor index ((fp * MURMUR_CONST) mod 2 ^ 32) mod 2 ^ 32.

(** *** [double] *)

Definition prec : Z := 53.
Definition emax : Z := 1024.

(** Conversion of an integer to [double], rounding to nearest even. *)
Definition double_of_Z (z : Z) : spec_float :=
  binary_normalize prec emax z 0 false.

Definition double_div : spec_float -> spec_float -> spec_float :=
  SFdiv prec emax.

Definition double_mul : spec_float -> spec_float -> spec_float :=
  SFmul prec emax.

(** The integer part of a finite [double], towards zero. *)
Definition truncate (x : spec_float) : option Z :=
  match x with
  | S754_zero _ => Some 0
  | S754_finite s m e => Some (cond_Zopp s (Z.shiftl (Z.pos m) e))
  | S754_infinity _ | S754_nan => None
  end.

(** The value [m * 2 ^ e] of a mantissa and an exponent, as the integer
    [m * 2 ^ (e + K)]: a scale [K] beyond the least exponent makes the
    values of [double]s comparable as integers. *)
Definition scaled (K m e : Z) : Z := m * 2 ^ (e + K).

(** Conversion of a [double] to [uint32_t].  C++ leaves it undefined when
    the truncated value is not a [uint32_t]: [None]. *)
Definition uint32_of_double (x : spec_float) : option Z :=
  match truncate x with
  | Some z => if (0 <=? z) && (z <? 2 ^ 32) then Some z else None
  | None => None
  end.

(** *** [HashFunction::hash] *)

(** How a run of [hash] ends: by returning [b], in an undefined
    conversion, or not within the iterations granted. *)
Inductive outcome :=
| Returns (b : Z)
| Undefined
| OutOfFuel.

(** [(b + 1) * (double(1LL << 31) / double((key_val >> 33) + 1))],
    assigned to the [uint32_t] variable [j].  [b + 1] is computed in
    [uint32_t]. *)
Definition next_j (b key_val : Z) : option Z :=
  uint32_of_double
    (double_mul (double_of_Z ((b + 1) mod 2 ^ 32))
       (double_div (double_of_Z (2 ^ 31))
          (double_of_Z (Z.shiftr key_val 33 + 1)))).

(** The [while] loop, run for at most [fuel] iterations. *)
Fixpoint hash_loop (fuel : nat) (num_buckets b j key_val : Z) : outcome :=
  if j <? num_buckets then
    match fuel with
    | O => OutOfFuel
    | S fuel' =>
        let b := j in
        let key_val := (key_val * 2862933555777941757 + 1) mod 2 ^ 64 in
        match next_j b key_val with
        | Some j => hash_loop fuel' num_buckets b j key_val
        | None => Undefined
        end
    end
  else Returns b.

Section Hash.
(** [std::hash<size_t>], which the C++ standard leaves to the
    implementation. *)
Variable std_hash : Z -> Z.

Definition hash (fuel : nat) (key num_buckets : Z) : outcome :=
  let key_val := std_hash key in
  hash_loop fuel num_buckets 1 0 key_val.
End Hash.

(** [std::hash<size_t>] of libstdc++ and libc++: the identity. *)
Definition identity_hash (key : Z) : Z := key.

End HashFunction.

(** ** The field codec ([BitManager]) *)

Module BitManager.

(** The [slot]-th field of [bits] bits of the packed word [w]. *)
Definition field (bits : nat) (w : Z) (slot : nat) : Z :=
  Z.land (Z.shiftr w (Z.of_nat (slot * bits))) (Z.ones (Z.of_nat bits)).

(** Modelled from the spec: [bit_manager.hpp] (the [BitManager] classes)
    is not among the sources.  [read(slot, bucket_bytes)] "extracts the
    bit field at the given slot offset ([slot * bits_per_fp] bits from the
    start) and returns it zero-extended".  The bucket bytes are taken in
    little-endian order, the order in which [containsFingerprint] loads
    them as one machine word. *)
Definition read (bits : nat) (slot : nat) (bucket : list byte) : Z :=
  field bits (le_combine bucket) slot.

(** Modelled from the spec: [write(slot, bucket_bytes, fingerprint)]
    "writes exactly [bits_per_fp] bits at the correct offset, leaving all
    other bits in the bucket untouched".  The C++ method updates the bytes
    in place; here the updated bytes are returned. *)
Definition write (bits : nat) (slot : nat) (bucket : list byte) (fp : Z)
  : list byte :=
  let off := Z.of_nat (slot * bits) in
  let keep := Z.ldiff (le_combine bucket) (Z.shiftl (Z.ones (Z.of_nat bits)) off) in
  let put := Z.shiftl (Z.land fp (Z.ones (Z.of_nat bits))) off in
  le_split (length bucket) (Z.lor keep put).

(** Modelled from the spec: [hasvalue(x, n)], the spec's
    [contains(bucket_as_u64, fingerprint)], examines "the bucket's full
    packed representation (as one 64-bit word)" and "must agree exactly
    with iterating [read] over every slot": it holds when one of the
    [entries] fields of [x] equals [n]. *)
Definition hasvalue (entries bits : nat) (x n : Z) : bool :=
  existsb (fun slot => field bits x slot =? n) (seq 0 entries).

End BitManager.

(** ** Counting *)

(** The number of indices in [0, n) at which [f] is not 0. *)
Definition occupied (f : nat -> Z) (n : nat) : nat :=
  length (filter (fun j => negb (f j =? 0)) (seq 0 n)).

(** 1 for a non-empty slot value, 0 for the empty one. *)
Definition nonzero (x : Z) : nat := if x =? 0 then 0%nat else 1%nat.

(** ** The bucket table ([CuckooTable]) *)

(** The fingerprint word types a table is instantiated with. *)
Inductive fp_word := uint8_t | uint16_t | uint32_t | uint64_t.

(** The template parameters of [CuckooTable]. *)
Class TableParams := {
  entries_per_bucket : nat;
  bits_per_fp : nat;
  fp_type : fp_word
}.

(** The member variables.  [buckets] lists the bytes found at the address
    [buckets]: the [table_size] buckets, one after the other, followed by
    whatever bytes lie behind the array (the 64-bit load of
    [containsFingerprint] reaches them from the last buckets; no operation
    writes them). *)
Record CuckooTable := {
  table_size : nat;
  fp_mask : Z;
  buckets : list byte
}.

Section Table.
Context {P : TableParams}.

Definition bytes_per_bucket : nat := (entries_per_bucket * bits_per_fp) / 8.

(** The five parameter combinations the constructor accepts. *)
Definition supported : bool :=
  match entries_per_bucket, bits_per_fp, fp_type with
  | 4%nat, 4%nat, uint8_t => true
  | 4%nat, 8%nat, uint8_t => true
  | 4%nat, 12%nat, uint16_t => true
  | 4%nat, 16%nat, uint16_t => true
  | 2%nat, 32%nat, uint32_t => true
  | _, _, _ => false
  end.

(** The constructor: zeroed buckets, or [None] for the
    [std::runtime_error] on unsupported parameters.  [behind] is the
    memory that follows the allocation. *)
Definition new_CuckooTable (size : nat) (mask : Z) (behind : list byte)
  : option CuckooTable :=
  if supported then
    Some {| table_size := size;
            fp_mask := mask;
            buckets := repeat Byte.x00 (bytes_per_bucket * size) ++ behind |}
  else None.

Definition getTableSize (t : CuckooTable) : nat := table_size t.

Definition maxNoOfElements (t : CuckooTable) : nat :=
  (entries_per_bucket * table_size t)%nat.

(** [buckets[i].data] *)
Definition data (t : CuckooTable) (i : nat) : list byte :=
  firstn bytes_per_bucket (skipn (i * bytes_per_bucket) (buckets t)).

(** The table after the bytes of bucket [i] have become [d]. *)
Definition set_data (t : CuckooTable) (i : nat) (d : list byte) : CuckooTable :=
  {| table_size := table_size t;
     fp_mask := fp_mask t;
     buckets := firstn (i * bytes_per_bucket) (buckets t) ++ d
                ++ skipn (i * bytes_per_bucket + bytes_per_bucket) (buckets t) |}.

Definition getFingerprint (t : CuckooTable) (i j : nat) : Z :=
  let fp := BitManager.read bits_per_fp j (data t i) in
  Z.land fp (fp_mask t).

Definition fingerprintCount (t : CuckooTable) (i : nat) : nat :=
  fold_left
    (fun count j => if getFingerprint t i j =? 0 then count else S count)
    (seq 0 entries_per_bucket) 0%nat.

Definition getNumOfFreeEntries (t : CuckooTable) : nat :=
  fold_left
    (fun free i =>
       fold_left
         (fun free j => if getFingerprint t i j =? 0 then S free else free)
         (seq 0 entries_per_bucket) free)
    (seq 0 (table_size t)) 0%nat.

Definition insertFingerprint (t : CuckooTable) (i j : nat) (fp : Z)
  : CuckooTable :=
  let efp := Z.land fp (fp_mask t) in
  set_data t i (BitManager.write bits_per_fp j (data t i) efp).

(** [rnd] is the value [rand()] returns when it is called.  The result is
    the returned flag, the final content of the reference [prev_fp], and
    the table. *)
Definition replacingFingerprintInsertion
    (t : CuckooTable) (i : nat) (fp : Z) (eject : bool) (prev_fp : Z)
    (rnd : nat) : bool * Z * CuckooTable :=
  match find (fun j => getFingerprint t i j =? 0) (seq 0 entries_per_bucket) with
  | Some j => (true, prev_fp, insertFingerprint t i j fp)
  | None =>
      if eject then
        let next := (rnd mod entries_per_bucket)%nat in
        (false, getFingerprint t i next, insertFingerprint t i next fp)
      else (false, prev_fp, t)
  end.

(** The 64-bit load [*((uint64_t * ) bucket)] on a little-endian machine. *)
Definition load_u64 (t : CuckooTable) (i : nat) : Z :=
  le_combine (firstn 8 (skipn (i * bytes_per_bucket) (buckets t))).

Definition containsFingerprint (t : CuckooTable) (i : nat) (fp : Z) : bool :=
  let val := load_u64 t i in
  BitManager.hasvalue entries_per_bucket bits_per_fp val fp.

Definition containsFingerprint2 (t : CuckooTable) (i1 i2 : nat) (fp : Z)
  : bool :=
  let val1 := load_u64 t i1 in
  let val2 := load_u64 t i2 in
  BitManager.hasvalue entries_per_bucket bits_per_fp val1 fp
  || BitManager.hasvalue entries_per_bucket bits_per_fp val2 fp.

Definition deleteFingerprint (t : CuckooTable) (fp : Z) (i : nat)
  : bool * CuckooTable :=
  match find (fun j => getFingerprint t i j =? fp) (seq 0 entries_per_bucket) with
  | Some j => (true, insertFingerprint t i j 0)
  | None => (false, t)
  end.

(** The bucket array lies within the modelled memory. *)
Definition allocated (t : CuckooTable) : Prop :=
  (table_size t * bytes_per_bucket <= length (buckets t))%nat.

(** What [insertFingerprint] leaves in a slot for the argument [fp]. *)
Definition stored (t : CuckooTable) (fp : Z) : Z :=
  Z.land (Z.land fp (fp_mask t)) (Z.ones (Z.of_nat bits_per_fp)).

(** The number of non-empty slots of the whole table. *)
Definition storedFingerprints (t : CuckooTable) : nat :=
  list_sum (map (fingerprintCount t) (seq 0 (table_size t))).

(** No slot of bucket [i] reads 0. *)
Definition full (t : CuckooTable) (i : nat) : Prop :=
  forall j, (j < entries_per_bucket)%nat -> getFingerprint t i j <> 0.

(** No slot of bucket [i] stores a bit outside [fp_mask]. *)
Definition clean (t : CuckooTable) (i : nat) : Prop :=
  forall j, (j < entries_per_bucket)%nat ->
    Z.land (BitManager.read bits_per_fp j (data t i)) (fp_mask t)
    = BitManager.read bits_per_fp j (data t i).

(** What every state of a constructed table satisfies. *)
Definition table_invariant (t : CuckooTable) : Prop :=
  supported = true /\ allocated t
  /\ forall i, (i < table_size t)%nat -> clean t i.

(** The states a table goes through: construction, then any sequence of
    the three mutating operations at in-range indices. *)
Inductive reachable : CuckooTable -> Prop :=
| reach_new size mask behind t :
    new_CuckooTable size mask behind = Some t -> reachable t
| reach_insert t i j fp :
    reachable t -> (i < table_size t)%nat -> (j < entries_per_bucket)%nat ->
    reachable (insertFingerprint t i j fp)
| reach_replacing t i fp eject prev rnd :
    reachable t -> (i < table_size t)%nat ->
    reachable (snd (replacingFingerprintInsertion t i fp eject prev rnd))
| reach_delete t fp i :
    reachable t -> (i < table_size t)%nat ->
    reachable (snd (deleteFingerprint t fp i)).

End Table.

(** ** The spec's scenario *)

(** 4 entries of 8 bits. *)
Definition params_4_8 : TableParams :=
  {| entries_per_bucket := 4; bits_per_fp := 8; fp_type := uint8_t |}.

(** 8 empty buckets, mask 0xFF, nothing behind the array. *)
Definition scenario_empty : CuckooTable :=
  {| table_size := 8; fp_mask := 0xFF; buckets := repeat Byte.x00 32 |}.

(** Bucket 3 holds 0x2B, 0x2C, 0x2D in slots 1 to 3; slot 0 is empty. *)
Definition scenario_three : CuckooTable :=
  insertFingerprint (P := params_4_8)
    (insertFingerprint (P := params_4_8)
       (insertFingerprint (P := params_4_8) scenario_empty 3 1 0x2B)
       3 2 0x2C)
    3 3 0x2D.

(** Bucket 3 holds 0x2A, 0x2B, 0x2C, 0x2D. *)
Definition scenario_full : CuckooTable :=
  insertFingerprint (P := params_4_8) scenario_three 3 0 0x2A.

(** The same shape with a mask of 4 bits, narrower than the 8-bit field. *)
Definition narrow_empty : CuckooTable :=
  {| table_size := 8; fp_mask := 0x0F; buckets := repeat Byte.x00 32 |}.

(** [insertFingerprint(3, 0, 0x1A)] on it: the slot receives 0x0A. *)
Definition narrow_inserted : CuckooTable :=
  insertFingerprint (P := params_4_8) narrow_empty 3 0 0x1A.

(** Bucket memory whose first byte of bucket 3 is 0x1A, under that mask. *)
Definition narrow_raw : CuckooTable :=
  {| table_size := 8; fp_mask := 0x0F;
     buckets := repeat Byte.x00 12 ++ [Byte.x1a] ++ repeat Byte.x00 19 |}.

(** The same shape with a mask of 12 bits, wider than the 8-bit field. *)
Definition wide_empty : CuckooTable :=
  {| table_size := 8; fp_mask := 0xFFF; buckets := repeat Byte.x00 32 |}.

(** [insertFingerprint(3, 0, 0x1FF)] on it: the slot receives 0xFF. *)
Definition wide_inserted : CuckooTable :=
  insertFingerprint (P := params_4_8) wide_empty 3 0 0x1FF.

(* ===================================================================== *)
(** * Facts about the field codec                                         *)
(* ===================================================================== *)

Module BitManagerFacts.
Import BitManager.

Lemma field_range bits w slot : 0 <= field bits w slot < 2 ^ Z.of_nat bits.
Proof.
  unfold field. rewrite Z.land_ones by lia.
  apply Z.mod_pos_bound, Z.pow_pos_nonneg; lia.
Qed.

Lemma le_combine_small (d : list byte) :
  le_combine d mod 2 ^ (Z.of_nat (length d) * 8) = le_combine d.
Proof.
  apply Z.mod_small. pose proof (le_combine_bound d) as H.
  replace (Z.of_nat (length d) * 8) with (8 * Z.of_nat (length d)) by lia.
  exact H.
Qed.

Lemma write_length bits slot d fp : length (write bits slot d fp) = length d.
Proof. unfold write. apply length_le_split. Qed.

(** Replace the non-negative integer [Z.of_nat e] by a variable. *)
Ltac forget_nat e x :=
  let H := fresh "Hnn" in
  let E := fresh "E" in
  pose proof (Nat2Z.is_nonneg e) as H;
  remember (Z.of_nat e) as x eqn:E; clear E.

(** A field written in range reads back as the low [bits] bits written. *)
Lemma read_write_same bits slot d fp :
  ((slot + 1) * bits <= 8 * length d)%nat ->
  read bits slot (write bits slot d fp) = Z.land fp (Z.ones (Z.of_nat bits)).
Proof.
  intros Hin. unfold read, write, field.
  rewrite le_combine_split.
  assert (Ho : Z.of_nat (slot * bits) + Z.of_nat bits
               <= Z.of_nat (length d) * 8) by lia.
  clear Hin.
  forget_nat (slot * bits)%nat o. forget_nat bits b.
  remember (Z.of_nat (length d) * 8) as n eqn:En; clear En.
  Z.bitblast.
Qed.

(** Writing one field leaves every other field as it was. *)
Lemma read_write_other bits slot slot' d fp :
  slot <> slot' ->
  read bits slot' (write bits slot d fp) = read bits slot' d.
Proof.
  intros Hne. unfold read, write, field.
  rewrite le_combine_split.
  rewrite <- (le_combine_small d) at 2.
  assert (Ho : Z.of_nat (slot' * bits) + Z.of_nat bits <= Z.of_nat (slot * bits)
            \/ Z.of_nat (slot * bits) + Z.of_nat bits <= Z.of_nat (slot' * bits)).
  { destruct (Nat.lt_ge_cases slot slot') as [Hlt | Hge]; [right | left].
    - pose proof (Nat.mul_le_mono_r (S slot) slot' bits Hlt). lia.
    - assert (Hlt : (S slot' <= slot)%nat) by lia.
      pose proof (Nat.mul_le_mono_r (S slot') slot bits Hlt). lia. }
  clear Hne.
  forget_nat (slot * bits)%nat o. forget_nat (slot' * bits)%nat o'.
  forget_nat bits b.
  assert (Hn : 0 <= Z.of_nat (length d) * 8) by lia.
  remember (Z.of_nat (length d) * 8) as n eqn:En; clear En.
  remember (le_combine d) as w eqn:Ew; clear Ew.
  Z.bitblast.
Qed.

(** Writing into a field the value it holds changes no byte. *)
Lemma write_same_field bits slot d fp :
  Z.land fp (Z.ones (Z.of_nat bits)) = read bits slot d ->
  write bits slot d fp = d.
Proof.
  intros H. unfold write. rewrite H. unfold read, field.
  replace (Z.lor _ _) with (le_combine d); [apply split_le_combine|].
  forget_nat (slot * bits)%nat o. forget_nat bits b.
  remember (le_combine d) as w eqn:Ew; clear Ew.
  Z.bitblast.
Qed.

(** Masking a value that is not negative does not make it larger. *)
Lemma land_le_l a b : 0 <= a -> Z.land a b <= a.
Proof.
  intros Ha.
  assert (Hsplit : a = Z.land a b + Z.ldiff a b).
  { rewrite <- Z.or_to_plus by Z.bitblast. Z.bitblast. }
  assert (0 <= Z.ldiff a b) by (apply Z.ldiff_nonneg; lia).
  lia.
Qed.

End BitManagerFacts.

(* ===================================================================== *)
(** * Facts about the bucket table                                        *)
(* ===================================================================== *)

Section ListFacts.
Context {A : Type}.

(** A window that lies inside a prefix does not see what follows. *)
Lemma window_in_prefix (l r : list A) k n :
  (k + n <= length l)%nat ->
  firstn n (skipn k (l ++ r)) = firstn n (skipn k l).
Proof.
  intros H. rewrite skipn_app, firstn_app, length_skipn.
  replace (n - (length l - k))%nat with 0%nat by lia.
  rewrite firstn_0, app_nil_r. reflexivity.
Qed.

(** Skipping past a prefix. *)
Lemma skipn_past_prefix (l r : list A) k :
  (length l <= k)%nat -> skipn k (l ++ r) = skipn (k - length l) r.
Proof.
  intros H. rewrite skipn_app, skipn_all2 by lia. reflexivity.
Qed.

Lemma find_seq_from (p : nat -> bool) n : forall s j,
  find p (seq s n) = Some j ->
  (s <= j < s + n)%nat /\ p j = true /\
  forall j', (s <= j' < j)%nat -> p j' = false.
Proof.
  induction n as [|n IH]; intros s j; simpl.
  - discriminate.
  - destruct (p s) eqn:Hp.
    + intros [= <-]. repeat split; try lia; auto.
    + intros Hf. destruct (IH _ _ Hf) as (Hr & Hj & Hlow).
      repeat split; try lia; auto.
      intros j' Hj'. destruct (Nat.eq_dec j' s) as [-> | Hne]; auto.
      apply Hlow. lia.
Qed.

(** The first index a predicate accepts in [0, n). *)
Lemma find_seq_some (p : nat -> bool) n j :
  find p (seq 0 n) = Some j ->
  (j < n)%nat /\ p j = true /\ forall j', (j' < j)%nat -> p j' = false.
Proof.
  intros Hf. destruct (find_seq_from _ _ _ _ Hf) as (Hr & Hj & Hlow).
  repeat split; try lia; auto. intros; apply Hlow; lia.
Qed.

Lemma find_seq_none (p : nat -> bool) n :
  find p (seq 0 n) = None -> forall j, (j < n)%nat -> p j = false.
Proof.
  intros Hf j Hj. apply (find_none _ _ Hf). apply in_seq. lia.
Qed.

(** A predicate that holds somewhere in [0, n) is found. *)
Lemma find_seq_exists (p : nat -> bool) n j :
  (j < n)%nat -> p j = true -> exists j0, find p (seq 0 n) = Some j0.
Proof.
  intros Hj Hp. destruct (find p (seq 0 n)) as [j0|] eqn:Hf; eauto.
  rewrite (find_seq_none _ _ Hf j Hj) in Hp. discriminate.
Qed.

End ListFacts.

Section CountingFacts.

Lemma fold_count (f : nat -> Z) (l : list nat) : forall acc,
  fold_left (fun count j => if f j =? 0 then count else S count) l acc
  = Nat.add acc (length (filter (fun j => negb (f j =? 0)) l)).
Proof.
  induction l as [|x l IH]; intros acc; simpl.
  - lia.
  - rewrite IH. destruct (f x =? 0); simpl; lia.
Qed.

Lemma filter_length_agree (p q : nat -> bool) (l : list nat) :
  (forall x, In x l -> p x = q x) ->
  length (filter p l) = length (filter q l).
Proof.
  intros H. rewrite (filter_ext_in p q l H). reflexivity.
Qed.

(** Changing [f] at the single index [j0] changes the count by the
    difference of the two indicators. *)
Lemma occupied_update (f g : nat -> Z) n j0 :
  (j0 < n)%nat ->
  (forall j, (j < n)%nat -> j <> j0 -> g j = f j) ->
  (occupied g n + nonzero (f j0) = occupied f n + nonzero (g j0))%nat.
Proof.
  intros Hj Hsame. unfold occupied.
  replace n with (j0 + (1 + (n - S j0)))%nat by lia.
  rewrite !seq_app, !filter_app, !length_app. simpl.
  rewrite (filter_length_agree (fun j => negb (g j =? 0)) (fun j => negb (f j =? 0))
             (seq 0 j0)).
  2:{ intros x Hx. apply in_seq in Hx. rewrite Hsame by lia. reflexivity. }
  rewrite (filter_length_agree (fun j => negb (g j =? 0)) (fun j => negb (f j =? 0))
             (seq (j0 + 1) (n - S j0))).
  2:{ intros x Hx. apply in_seq in Hx. rewrite Hsame by lia. reflexivity. }
  unfold nonzero. destruct (g j0 =? 0), (f j0 =? 0); simpl; lia.
Qed.

Lemma occupied_le (f : nat -> Z) n : (occupied f n <= n)%nat.
Proof.
  unfold occupied.
  etransitivity; [apply filter_length_le | rewrite length_seq; lia].
Qed.

(** The count falls short of [n] exactly when some index holds 0. *)
Lemma occupied_lt_iff (f : nat -> Z) n :
  (occupied f n < n)%nat <-> exists j, (j < n)%nat /\ f j = 0.
Proof.
  unfold occupied.
  assert (G : forall l : list nat,
            Nat.lt (length (filter (fun j => negb (f j =? 0)) l)) (length l)
            <-> exists j, In j l /\ f j = 0).
  { induction l as [|x l IH]; simpl.
    - split; [lia | intros (j & [] & _)].
    - destruct (f x =? 0) eqn:Hx; simpl.
      + split; [intros _ | intros _].
        * exists x. split; auto. apply Z.eqb_eq, Hx.
        * pose proof (filter_length_le (fun j => negb (f j =? 0)) l). lia.
      + rewrite <- Nat.succ_lt_mono, IH. split.
        * intros (j & Hin & Hz). exists j; auto.
        * intros (j & [-> | Hin] & Hz); [|exists j; auto].
          rewrite Hz in Hx. discriminate. }
  specialize (G (seq 0 n)). rewrite length_seq in G. rewrite G.
  split; intros (j & Hin & Hz); exists j; split; auto; apply in_seq in Hin || apply in_seq; lia.
Qed.

End CountingFacts.

(** What the constructor's check guarantees about the layout. *)
Lemma shape_facts (P : TableParams) :
  supported = true ->
  (0 < entries_per_bucket)%nat /\ (0 < bits_per_fp)%nat /\
  (entries_per_bucket * bits_per_fp = 8 * bytes_per_bucket)%nat /\
  (bytes_per_bucket <= 8)%nat.
Proof.
  destruct P as [e b ty]. unfold supported, bytes_per_bucket; cbn.
  intros H.
  repeat match type of H with
         | context [match ?x with _ => _ end] =>
             is_var x; destruct x; cbn in H; try discriminate H
         end;
    cbn; repeat split; lia.
Qed.

Section TableFacts.
Context {P : TableParams}.
Import BitManager BitManagerFacts.

Local Abbreviation E := entries_per_bucket.
Local Abbreviation B := bits_per_fp.
Local Abbreviation bpb := bytes_per_bucket.

Lemma bucket_in_bounds t i :
  allocated t -> (i < table_size t)%nat ->
  (i * bpb + bpb <= length (buckets t))%nat.
Proof.
  unfold allocated. intros Ha Hi.
  pose proof (Nat.mul_le_mono_r (S i) (table_size t) bpb Hi). simpl in *. lia.
Qed.

Lemma data_length t i :
  allocated t -> (i < table_size t)%nat -> length (data t i) = bpb.
Proof.
  intros Ha Hi. pose proof (bucket_in_bounds t i Ha Hi).
  unfold data. rewrite length_firstn, length_skipn. lia.
Qed.

Lemma data_set_data_same t i d :
  allocated t -> (i < table_size t)%nat -> length d = bpb ->
  data (set_data t i d) i = d.
Proof.
  intros Ha Hi Hd. pose proof (bucket_in_bounds t i Ha Hi).
  unfold data, set_data; simpl.
  rewrite skipn_past_prefix by (rewrite length_firstn; lia).
  rewrite length_firstn.
  replace (i * bpb - Nat.min (i * bpb) (length (buckets t)))%nat with 0%nat by lia.
  simpl. rewrite firstn_app, <- Hd, firstn_all, Nat.sub_diag, firstn_0.
  apply app_nil_r.
Qed.

Lemma data_set_data_other t i i' d :
  allocated t -> (i < table_size t)%nat -> length d = bpb -> i' <> i ->
  data (set_data t i d) i' = data t i'.
Proof.
  intros Ha Hi Hd Hne. pose proof (bucket_in_bounds t i Ha Hi) as Hb.
  unfold data, set_data; simpl.
  assert (Hlen : length (firstn (i * bpb) (buckets t)) = (i * bpb)%nat)
    by (rewrite length_firstn; lia).
  destruct (Nat.lt_ge_cases i' i) as [Hlt | Hge].
  - pose proof (Nat.mul_le_mono_r (S i') i bpb Hlt) as Hm. simpl in Hm.
    rewrite window_in_prefix by lia.
    rewrite <- (firstn_skipn (i * bpb) (buckets t)) at 2.
    rewrite window_in_prefix by lia. reflexivity.
  - assert (Hlt : (S i <= i')%nat) by lia.
    pose proof (Nat.mul_le_mono_r (S i) i' bpb Hlt) as Hm. simpl in Hm.
    rewrite skipn_past_prefix by lia.
    rewrite skipn_past_prefix by lia.
    rewrite skipn_skipn. do 2 f_equal. lia.
Qed.

Lemma allocated_set_data t i d :
  allocated t -> (i < table_size t)%nat -> length d = bpb ->
  allocated (set_data t i d).
Proof.
  intros Ha Hi Hd. pose proof (bucket_in_bounds t i Ha Hi) as Hb.
  unfold allocated in *. unfold set_data; simpl.
  rewrite !length_app, length_firstn, length_skipn. lia.
Qed.

(** The fields of the loaded word are the slots of the bucket: the bytes
    the load takes beyond the bucket lie above every field. *)
Lemma load_u64_field t i j :
  supported = true -> (j < E)%nat ->
  field B (load_u64 t i) j = read B j (data t i).
Proof.
  intros Hs Hj. destruct (shape_facts P Hs) as (_ & _ & Heq & Hle).
  unfold load_u64, data, read, field. rewrite !le_combine_firstn.
  assert (Ho : Z.of_nat (j * B) + Z.of_nat B <= 8 * Z.of_nat bpb).
  { pose proof (Nat.mul_le_mono_r (S j) E B Hj) as Hm.
    rewrite Nat.mul_succ_l in Hm. lia. }
  assert (Hb : 8 * Z.of_nat bpb <= 8 * Z.of_nat 8) by lia.
  forget_nat (j * B)%nat o. forget_nat B b.
  remember (8 * Z.of_nat bpb) as n eqn:En; clear En.
  remember (8 * Z.of_nat 8) as m eqn:Em; clear Em.
  remember (le_combine (skipn (i * bpb) (buckets t))) as w eqn:Ew; clear Ew.
  Z.bitblast.
Qed.

Lemma set_data_same t i : set_data t i (data t i) = t.
Proof.
  destruct t as [size mask bs]. unfold set_data, data; simpl. f_equal.
  rewrite (Nat.add_comm (i * bpb) bpb), <- skipn_skipn.
  rewrite firstn_skipn. apply firstn_skipn.
Qed.

Lemma slot_in_bounds j :
  supported = true -> (j < E)%nat -> ((j + 1) * B <= 8 * bpb)%nat.
Proof.
  intros Hs Hj. destruct (shape_facts P Hs) as (_ & _ & Heq & _).
  assert (Hj' : (j + 1 <= E)%nat) by lia.
  pose proof (Nat.mul_le_mono_r _ _ B Hj'). lia.
Qed.

Lemma stored_masked t fp : Z.land (stored t fp) (fp_mask t) = stored t fp.
Proof. unfold stored. forget_nat B b. Z.bitblast. Qed.

Lemma stored_zero t : stored t 0 = 0.
Proof. reflexivity. Qed.

Lemma insert_allocated t i j fp :
  allocated t -> (i < table_size t)%nat ->
  allocated (insertFingerprint t i j fp).
Proof.
  intros Ha Hi. apply allocated_set_data; auto.
  rewrite write_length. apply data_length; auto.
Qed.

(** The slot written holds the masked fingerprint, cut to the field. *)
Lemma read_insert_same t i j fp :
  supported = true -> allocated t -> (i < table_size t)%nat -> (j < E)%nat ->
  read B j (data (insertFingerprint t i j fp) i) = stored t fp.
Proof.
  intros Hs Ha Hi Hj. unfold insertFingerprint.
  rewrite data_set_data_same by (auto; rewrite write_length; apply data_length; auto).
  rewrite read_write_same; [reflexivity|].
  rewrite data_length by auto. apply slot_in_bounds; auto.
Qed.

(** Every other slot of the table holds what it held. *)
Lemma read_insert_other t i j fp i' j' :
  allocated t -> (i < table_size t)%nat -> i' <> i \/ j' <> j ->
  read B j' (data (insertFingerprint t i j fp) i') = read B j' (data t i').
Proof.
  intros Ha Hi Hne. unfold insertFingerprint.
  destruct (Nat.eq_dec i' i) as [-> | Hi'].
  - rewrite data_set_data_same by (auto; rewrite write_length; apply data_length; auto).
    apply read_write_other. intros ->. destruct Hne; congruence.
  - rewrite data_set_data_other by (auto; rewrite write_length; apply data_length; auto).
    reflexivity.
Qed.

Lemma get_insert_same t i j fp :
  supported = true -> allocated t -> (i < table_size t)%nat -> (j < E)%nat ->
  getFingerprint (insertFingerprint t i j fp) i j = stored t fp.
Proof.
  intros Hs Ha Hi Hj. unfold getFingerprint.
  rewrite read_insert_same by auto. exact (stored_masked t fp).
Qed.

Lemma get_insert_other t i j fp i' j' :
  allocated t -> (i < table_size t)%nat -> i' <> i \/ j' <> j ->
  getFingerprint (insertFingerprint t i j fp) i' j' = getFingerprint t i' j'.
Proof.
  intros Ha Hi Hne. unfold getFingerprint.
  rewrite read_insert_other by auto. reflexivity.
Qed.

Lemma fingerprintCount_occupied t i :
  fingerprintCount t i = occupied (getFingerprint t i) E.
Proof. unfold fingerprintCount, occupied. apply fold_count. Qed.

(** How a write into one slot of bucket [i] moves its count. *)
Lemma count_insert t i j fp :
  supported = true -> allocated t -> (i < table_size t)%nat -> (j < E)%nat ->
  (fingerprintCount (insertFingerprint t i j fp) i + nonzero (getFingerprint t i j)
   = fingerprintCount t i + nonzero (stored t fp))%nat.
Proof.
  intros Hs Ha Hi Hj. rewrite !fingerprintCount_occupied.
  rewrite <- (get_insert_same t i j fp) by auto.
  apply (occupied_update (getFingerprint t i)
           (getFingerprint (insertFingerprint t i j fp) i) E j); auto.
  intros j' _ Hne. apply get_insert_other; auto.
Qed.

(** At the table, the word test is the test of the raw slots. *)
Lemma contains_iff_read t i fp :
  supported = true ->
  containsFingerprint t i fp = true
  <-> exists j, (j < E)%nat /\ read B j (data t i) = fp.
Proof.
  intros Hs. unfold containsFingerprint, hasvalue. rewrite existsb_exists.
  split.
  - intros (j & Hin & Heq). apply in_seq in Hin. exists j. split; [lia|].
    rewrite <- load_u64_field by (auto; lia). apply Z.eqb_eq, Heq.
  - intros (j & Hj & Heq). exists j. split; [apply in_seq; lia|].
    rewrite load_u64_field by auto. apply Z.eqb_eq, Heq.
Qed.

Lemma full_find_none t i :
  full t i ->
  find (fun j => getFingerprint t i j =? 0) (seq 0 E) = None.
Proof.
  intros Hf. destruct (find _ _) as [j|] eqn:Hfind; auto.
  apply find_seq_some in Hfind. destruct Hfind as (Hj & Hz & _).
  apply Z.eqb_eq in Hz. destruct (Hf j Hj Hz).
Qed.

Lemma full_count t i : full t i -> fingerprintCount t i = E.
Proof.
  intros Hf. rewrite fingerprintCount_occupied.
  pose proof (occupied_le (getFingerprint t i) E) as Hle.
  destruct (Nat.eq_dec (occupied (getFingerprint t i) E) E) as [|Hne]; auto.
  assert (Hlt : (occupied (getFingerprint t i) E < E)%nat) by lia.
  apply occupied_lt_iff in Hlt. destruct Hlt as (j & Hj & Hz).
  destruct (Hf j Hj Hz).
Qed.

End TableFacts.

(* ===================================================================== *)
(** * Insertion with eviction                                             *)
(* ===================================================================== *)

Section Insertion.
Context {P : TableParams}.
Import BitManager BitManagerFacts.

Local Abbreviation E := entries_per_bucket.

(** C3.  On a bucket without an empty slot, [replacingFingerprintInsertion]
    with [eject = false] returns false, leaves [prev_fp] as it was passed
    and leaves the table exactly as it was. *)
Theorem insertion_full_no_eject t i fp prev rnd :
  full t i ->
  replacingFingerprintInsertion t i fp false prev rnd = (false, prev, t).
Proof.
  intros Hf. unfold replacingFingerprintInsertion.
  rewrite full_find_none by assumption. reflexivity.
Qed.

(** C1, amended.  When [replacingFingerprintInsertion] returns true, the
    reference [prev_fp] is untouched; the count of bucket [i] is one
    greater than before provided the value stored for [fp] is not 0 (it is
    unchanged when that value is 0); and [containsFingerprint(i, fp)] is
    true provided [fp] is stored as it is, that is, [fp] lies within
    [fp_mask] and the field width. *)
Theorem insertion_success t i fp eject prev rnd :
  supported = true -> allocated t -> (i < table_size t)%nat ->
  let r := replacingFingerprintInsertion t i fp eject prev rnd in
  fst (fst r) = true ->
  snd (fst r) = prev
  /\ (stored t fp <> 0 -> fingerprintCount (snd r) i = S (fingerprintCount t i))
  /\ (stored t fp = 0 -> fingerprintCount (snd r) i = fingerprintCount t i)
  /\ (stored t fp = fp -> containsFingerprint (snd r) i fp = true).
Proof.
  intros Hs Ha Hi r. subst r. unfold replacingFingerprintInsertion.
  destruct (find _ _) as [j|] eqn:Hfind.
  2:{ destruct eject; simpl; discriminate. }
  simpl. intros _.
  apply find_seq_some in Hfind. destruct Hfind as (Hj & Hz & _).
  apply Z.eqb_eq in Hz.
  pose proof (count_insert t i j fp Hs Ha Hi Hj) as Hc.
  rewrite Hz in Hc. unfold nonzero in Hc. simpl in Hc.
  repeat split.
  - intros Hnz. apply Z.eqb_neq in Hnz. rewrite Hnz in Hc. lia.
  - intros Hnz. rewrite Hnz in Hc. simpl in Hc. lia.
  - intros Hst. apply contains_iff_read; auto. exists j. split; auto.
    rewrite read_insert_same by auto. exact Hst.
Qed.

(** C2, amended.  On a full bucket, [replacingFingerprintInsertion] with
    [eject = true] returns false, hands back in [prev_fp] the previous
    occupant of the one slot [rand() % entries_per_bucket], which now
    holds the value stored for [fp], and leaves every other slot as it
    was.  The count is unchanged provided the value stored for [fp] is not
    0, and [containsFingerprint(i, fp)] is true provided [fp] is stored as
    it is. *)
Theorem insertion_full_eject t i fp prev rnd :
  supported = true -> allocated t -> (i < table_size t)%nat -> full t i ->
  let next := (rnd mod E)%nat in
  let r := replacingFingerprintInsertion t i fp true prev rnd in
  fst (fst r) = false
  /\ snd (fst r) = getFingerprint t i next
  /\ getFingerprint t i next <> 0
  /\ getFingerprint (snd r) i next = stored t fp
  /\ (forall i' j', i' <> i \/ j' <> next ->
        getFingerprint (snd r) i' j' = getFingerprint t i' j')
  /\ (stored t fp <> 0 -> fingerprintCount (snd r) i = fingerprintCount t i)
  /\ (stored t fp = fp -> containsFingerprint (snd r) i fp = true).
Proof.
  intros Hs Ha Hi Hf next r. subst r.
  destruct (shape_facts P Hs) as (HE & _).
  assert (Hn : (next < E)%nat) by (apply Nat.mod_upper_bound; lia).
  unfold replacingFingerprintInsertion.
  rewrite full_find_none by assumption. simpl. fold next.
  pose proof (count_insert t i next fp Hs Ha Hi Hn) as Hc.
  pose proof (Hf next Hn) as Hocc.
  repeat split; auto.
  - apply get_insert_same; auto.
  - intros i' j' Hne. apply get_insert_other; auto.
  - intros Hnz. unfold nonzero in Hc.
    apply Z.eqb_neq in Hnz, Hocc. rewrite Hnz, Hocc in Hc. lia.
  - intros Hst. apply contains_iff_read; auto. exists next. split; auto.
    rewrite read_insert_same by auto. exact Hst.
Qed.

End Insertion.

(** ** The scenario: a bucket with one empty slot, then full *)

(** Decide a statement about every slot of a 4-entry bucket by running
    through the slots. *)
Ltac each_slot :=
  let j := fresh "j" in
  let Hj := fresh "Hj" in
  intros j Hj;
  do 4 (destruct j as [|j]; [vm_compute; try discriminate; try reflexivity|]);
  exfalso; cbn in Hj; lia.

Lemma scenario_three_allocated : allocated (P := params_4_8) scenario_three.
Proof. unfold allocated. vm_compute. apply le_n. Defined.

Lemma scenario_full_allocated : allocated (P := params_4_8) scenario_full.
Proof. unfold allocated. vm_compute. apply le_n. Defined.

Lemma scenario_full_is_full : full (P := params_4_8) scenario_full 3.
Proof. unfold full. each_slot. Defined.

Lemma scenario_bucket_in_range : (3 < 8)%nat.
Proof. lia. Defined.

Lemma insertion_full_no_eject_witness :
  full (P := params_4_8) scenario_full 3 /\
  replacingFingerprintInsertion (P := params_4_8) scenario_full 3 0x2E false 7 0
  = (false, 7, scenario_full).
Proof.
  split; [exact scenario_full_is_full|].
  apply (insertion_full_no_eject (P := params_4_8)).
  exact scenario_full_is_full.
Defined.

Lemma insertion_success_witness :
  let r := replacingFingerprintInsertion (P := params_4_8)
             scenario_three 3 0x2A false 7 0 in
  fst (fst r) = true
  /\ fingerprintCount (P := params_4_8) (snd r) 3
     = S (fingerprintCount (P := params_4_8) scenario_three 3)
  /\ containsFingerprint (P := params_4_8) (snd r) 3 0x2A = true.
Proof.
  intros r.
  assert (Hr : fst (fst r) = true) by reflexivity.
  destruct (insertion_success (P := params_4_8) scenario_three 3 0x2A false 7 0
              eq_refl scenario_three_allocated scenario_bucket_in_range Hr)
    as (_ & Hcount & _ & Hcontains).
  split; [exact Hr|]. split.
  - apply Hcount. vm_compute. discriminate.
  - apply Hcontains. reflexivity.
Defined.

(** C1 as stated fails for the fingerprint 0: the insertion reports success
    and the count of the bucket does not move. *)
Lemma insertion_of_zero_keeps_count :
  let r := replacingFingerprintInsertion (P := params_4_8)
             scenario_empty 3 0 false 7 0 in
  fst (fst r) = true
  /\ fingerprintCount (P := params_4_8) (snd r) 3
     <> S (fingerprintCount (P := params_4_8) scenario_empty 3).
Proof. vm_compute. split; [reflexivity | discriminate]. Qed.

Lemma insertion_full_eject_witness :
  let r := replacingFingerprintInsertion (P := params_4_8)
             scenario_full 3 0x2E true 7 6 in
  fst (fst r) = false
  /\ snd (fst r) = 0x2C
  /\ getFingerprint (P := params_4_8) (snd r) 3 2 = 0x2E
  /\ fingerprintCount (P := params_4_8) (snd r) 3
     = fingerprintCount (P := params_4_8) scenario_full 3
  /\ containsFingerprint (P := params_4_8) (snd r) 3 0x2E = true.
Proof.
  intros r.
  destruct (insertion_full_eject (P := params_4_8) scenario_full 3 0x2E 7 6
              eq_refl scenario_full_allocated scenario_bucket_in_range
              scenario_full_is_full)
    as (Hret & Hprev & _ & Hslot & _ & Hcount & Hcontains).
  split; [exact Hret|]. split; [exact Hprev|]. split; [exact Hslot|]. split.
  - apply Hcount. vm_compute. discriminate.
  - apply Hcontains. reflexivity.
Defined.

(** C2 as stated fails for the fingerprint 0: the evicted slot becomes
    empty and the count of the full bucket drops. *)
Lemma eviction_by_zero_drops_count :
  let r := replacingFingerprintInsertion (P := params_4_8)
             scenario_full 3 0 true 7 6 in
  full (P := params_4_8) scenario_full 3
  /\ fingerprintCount (P := params_4_8) scenario_full 3 = 4%nat
  /\ fingerprintCount (P := params_4_8) (snd r) 3 = 3%nat.
Proof.
  split; [exact scenario_full_is_full|]. vm_compute. split; reflexivity.
Qed.

(* ===================================================================== *)
(** * Lookup, deletion and the masking invariant                          *)
(* ===================================================================== *)

Section LookupDeletion.
Context {P : TableParams}.
Import BitManager BitManagerFacts.

Local Abbreviation E := entries_per_bucket.
Local Abbreviation B := bits_per_fp.

(** C7, amended.  On a bucket whose slots store no bit outside [fp_mask],
    [containsFingerprint(i, fp)] is true exactly when some slot [j] has
    [getFingerprint(i, j)] equal to [fp], the argument as it is passed. *)
Theorem contains_agrees_with_slots t i fp :
  supported = true -> clean t i ->
  containsFingerprint t i fp = true
  <-> exists j, (j < E)%nat /\ getFingerprint t i j = fp.
Proof.
  intros Hs Hc. rewrite contains_iff_read by assumption.
  unfold getFingerprint.
  split; intros (j & Hj & Heq); exists j; split; auto.
  - rewrite Hc by assumption. exact Heq.
  - rewrite <- Hc by assumption. exact Heq.
Qed.

(** A mask that covers the whole field makes every bucket content clean. *)
Lemma covering_mask_clean t i :
  Z.land (Z.ones (Z.of_nat B)) (fp_mask t) = Z.ones (Z.of_nat B) ->
  clean t i.
Proof.
  intros Hm j _. unfold read, field.
  rewrite <- Z.land_assoc, Hm. reflexivity.
Qed.

(** C8, amended.  When [j0] is the first slot of bucket [i] that reads
    [fp], [deleteFingerprint(fp, i)] returns true, slot [j0] then reads 0
    and every other slot reads what it read; if the deleted fingerprint is
    not 0, [containsFingerprint(i, fp)] afterwards is true only if another
    slot of the bucket held [fp].  When no slot reads [fp], it returns
    false and the table is unchanged. *)
Theorem delete_spec t fp i :
  supported = true -> allocated t -> (i < table_size t)%nat ->
  (forall j0, (j0 < E)%nat -> getFingerprint t i j0 = fp ->
     (forall j, (j < j0)%nat -> getFingerprint t i j <> fp) ->
     let r := deleteFingerprint t fp i in
     fst r = true
     /\ getFingerprint (snd r) i j0 = 0
     /\ (forall i' j', i' <> i \/ j' <> j0 ->
           getFingerprint (snd r) i' j' = getFingerprint t i' j')
     /\ (fp <> 0 -> containsFingerprint (snd r) i fp = true ->
           exists j, (j < E)%nat /\ j <> j0 /\ getFingerprint t i j = fp))
  /\ ((forall j, (j < E)%nat -> getFingerprint t i j <> fp) ->
        deleteFingerprint t fp i = (false, t)).
Proof.
  intros Hs Ha Hi. split.
  - intros j0 Hj0 Hfp Hfirst r. subst r. unfold deleteFingerprint.
    destruct (find _ _) as [j|] eqn:Hfind.
    2:{ pose proof (find_seq_none _ _ Hfind j0 Hj0) as Hn.
        apply Z.eqb_neq in Hn. contradiction. }
    apply find_seq_some in Hfind. destruct Hfind as (Hj & Hz & Hlow).
    apply Z.eqb_eq in Hz.
    assert (j = j0) as ->.
    { destruct (Nat.lt_trichotomy j j0) as [Hlt | [Heq | Hgt]]; auto.
      - destruct (Hfirst j Hlt Hz).
      - specialize (Hlow j0 Hgt). apply Z.eqb_neq in Hlow. contradiction. }
    simpl. repeat split.
    + rewrite get_insert_same by auto. reflexivity.
    + intros i' j' Hne. apply get_insert_other; auto.
    + intros Hnz Hc. apply contains_iff_read in Hc; auto.
      destruct Hc as (j & Hj' & Hr).
      destruct (Nat.eq_dec j j0) as [-> | Hne].
      * rewrite read_insert_same in Hr by auto. rewrite stored_zero in Hr.
        congruence.
      * rewrite read_insert_other in Hr by auto.
        exists j. repeat split; auto.
        unfold getFingerprint. rewrite Hr.
        rewrite <- Hfp. unfold getFingerprint.
        rewrite <- Z.land_assoc, Z.land_diag. reflexivity.
  - intros Hnone. unfold deleteFingerprint.
    destruct (find _ _) as [j|] eqn:Hfind; auto.
    apply find_seq_some in Hfind. destruct Hfind as (Hj & Hz & _).
    apply Z.eqb_eq in Hz. destruct (Hnone j Hj Hz).
Qed.

(** C10.  [deleteFingerprint(0, i)] returns true exactly when bucket [i]
    has an empty slot, that is, when its count is below
    [entries_per_bucket]; in either case every slot of the table reads
    what it read before, every count is what it was, and on a bucket that
    stores no bit outside the mask not a byte of the table changes. *)
Theorem delete_zero t i :
  supported = true -> allocated t -> (i < table_size t)%nat ->
  let r := deleteFingerprint t 0 i in
  (fst r = true <-> (fingerprintCount t i < E)%nat)
  /\ (forall i' j', getFingerprint (snd r) i' j' = getFingerprint t i' j')
  /\ (forall i', fingerprintCount (snd r) i' = fingerprintCount t i')
  /\ (clean t i -> snd r = t).
Proof.
  intros Hs Ha Hi r. subst r.
  assert (Hget : forall i' j',
             getFingerprint (snd (deleteFingerprint t 0 i)) i' j'
             = getFingerprint t i' j').
  { intros i' j'. unfold deleteFingerprint.
    destruct (find _ _) as [j|] eqn:Hfind; auto.
    apply find_seq_some in Hfind. destruct Hfind as (Hj & Hz & _).
    apply Z.eqb_eq in Hz. simpl.
    destruct (Nat.eq_dec i' i) as [-> | Hi'];
      [destruct (Nat.eq_dec j' j) as [-> | Hj']|].
    - rewrite get_insert_same by auto. rewrite stored_zero. congruence.
    - apply get_insert_other; auto.
    - apply get_insert_other; auto. }
  repeat split; auto.
  - rewrite fingerprintCount_occupied, occupied_lt_iff.
    unfold deleteFingerprint.
    destruct (find _ _) as [j|] eqn:Hfind; simpl; [|discriminate].
    intros _. apply find_seq_some in Hfind. destruct Hfind as (Hj & Hz & _).
    apply Z.eqb_eq in Hz. eauto.
  - rewrite fingerprintCount_occupied, occupied_lt_iff.
    intros (j & Hj & Hz). unfold deleteFingerprint.
    destruct (find_seq_exists (fun j => getFingerprint t i j =? 0) E j Hj)
      as (j0 & ->); [apply Z.eqb_eq, Hz | reflexivity].
  - intros i'. rewrite !fingerprintCount_occupied. unfold occupied.
    apply filter_length_agree. intros x _. rewrite Hget. reflexivity.
  - intros Hc. unfold deleteFingerprint.
    destruct (find _ _) as [j|] eqn:Hfind; auto.
    apply find_seq_some in Hfind. destruct Hfind as (Hj & Hz & _).
    apply Z.eqb_eq in Hz. simpl. unfold insertFingerprint.
    rewrite write_same_field; [apply set_data_same|].
    unfold getFingerprint in Hz. rewrite Hc in Hz by assumption.
    rewrite Hz. reflexivity.
Qed.

End LookupDeletion.

Section Invariant.
Context {P : TableParams}.
Import BitManager BitManagerFacts.

Local Abbreviation E := entries_per_bucket.
Local Abbreviation B := bits_per_fp.
Local Abbreviation bpb := bytes_per_bucket.

Lemma In_window {A} (l : list A) k n x :
  In x (firstn n (skipn k l)) -> In x l.
Proof.
  intros H.
  rewrite <- (firstn_skipn k l). apply in_or_app. right.
  rewrite <- (firstn_skipn n (skipn k l)). apply in_or_app. left. exact H.
Qed.

Lemma zero_bytes_combine (l : list byte) :
  (forall x, In x l -> x = Byte.x00) -> le_combine l = 0.
Proof.
  induction l as [|b l IH]; intros H; [reflexivity|].
  change (le_combine (b :: l))
    with (Z.lor (byte.unsigned b) (Z.shiftl (le_combine l) 8)).
  rewrite IH by (intros x Hx; apply H; right; exact Hx).
  rewrite (H b) by (left; reflexivity). reflexivity.
Qed.

Lemma new_invariant size mask behind t :
  new_CuckooTable size mask behind = Some t -> table_invariant t.
Proof.
  unfold new_CuckooTable. destruct supported eqn:Hs; [|discriminate].
  intros [= <-]. split; [exact Hs|]. split.
  - unfold allocated; simpl. rewrite length_app, repeat_length. lia.
  - simpl. intros i Hi j Hj. unfold read, data; simpl.
    assert (Hm : (i * bpb + bpb <= bpb * size)%nat).
    { pose proof (Nat.mul_le_mono_r (S i) size bpb Hi) as Hm.
      rewrite Nat.mul_succ_l in Hm. lia. }
    rewrite window_in_prefix by (rewrite repeat_length; lia).
    rewrite zero_bytes_combine.
    + unfold field. rewrite Z.shiftr_0_l. reflexivity.
    + intros x Hx. apply In_window in Hx.
      apply repeat_spec in Hx. exact Hx.
Qed.

Lemma insert_invariant t i j fp :
  table_invariant t -> (i < table_size t)%nat -> (j < E)%nat ->
  table_invariant (insertFingerprint t i j fp).
Proof.
  intros (Hs & Ha & Hc) Hi Hj. split; [exact Hs|]. split.
  - apply insert_allocated; auto.
  - intros i' Hi' j' Hj'.
    change (fp_mask (insertFingerprint t i j fp)) with (fp_mask t).
    destruct (Nat.eq_dec i' i) as [-> | Hne];
      [destruct (Nat.eq_dec j' j) as [-> | Hne]|].
    + rewrite read_insert_same by auto. apply stored_masked.
    + rewrite read_insert_other by auto. apply Hc; auto.
    + rewrite read_insert_other by auto. apply Hc; auto.
Qed.

Lemma replacing_invariant t i fp eject prev rnd :
  table_invariant t -> (i < table_size t)%nat ->
  table_invariant (snd (replacingFingerprintInsertion t i fp eject prev rnd)).
Proof.
  intros Hinv Hi. unfold replacingFingerprintInsertion.
  destruct (find _ _) as [j|] eqn:Hfind.
  - apply find_seq_some in Hfind. simpl. apply insert_invariant; tauto.
  - destruct eject; simpl; auto.
    apply insert_invariant; auto.
    destruct Hinv as (Hs & _). destruct (shape_facts P Hs) as (HE & _).
    apply Nat.mod_upper_bound. lia.
Qed.

Lemma delete_invariant t fp i :
  table_invariant t -> (i < table_size t)%nat ->
  table_invariant (snd (deleteFingerprint t fp i)).
Proof.
  intros Hinv Hi. unfold deleteFingerprint.
  destruct (find _ _) as [j|] eqn:Hfind; simpl; auto.
  apply find_seq_some in Hfind. apply insert_invariant; tauto.
Qed.

Lemma reachable_invariant t : reachable t -> table_invariant t.
Proof.
  induction 1 as [size mask behind t Hnew | t i j fp _ IH Hi Hj
                 | t i fp eject prev rnd _ IH Hi | t fp i _ IH Hi].
  - eapply new_invariant; eauto.
  - apply insert_invariant; auto.
  - apply replacing_invariant; auto.
  - apply delete_invariant; auto.
Qed.

(** C9.  In every reachable state and at every in-range slot, neither the
    value [getFingerprint] returns nor the value stored in the slot has a
    bit outside [fp_mask].  [insertFingerprint(i, j, fp)] leaves in the
    slot [fp & fp_mask] cut to the width of a field; what is then read
    back is [fp & fp_mask] itself exactly when that fits a field, which it
    does for every [fp] when the mask fits a field. *)
Theorem masking_invariant t i j :
  reachable t -> (i < table_size t)%nat -> (j < E)%nat ->
  Z.land (getFingerprint t i j) (fp_mask t) = getFingerprint t i j
  /\ Z.land (read B j (data t i)) (fp_mask t) = read B j (data t i)
  /\ (forall fp,
        read B j (data (insertFingerprint t i j fp) i)
        = Z.land (Z.land fp (fp_mask t)) (Z.ones (Z.of_nat B))
        /\ (getFingerprint (insertFingerprint t i j fp) i j
            = Z.land fp (fp_mask t)
            <-> 0 <= Z.land fp (fp_mask t) < 2 ^ Z.of_nat B))
  /\ (0 <= fp_mask t < 2 ^ Z.of_nat B ->
      forall fp,
        getFingerprint (insertFingerprint t i j fp) i j
        = Z.land fp (fp_mask t)).
Proof.
  intros Hr Hi Hj. destruct (reachable_invariant t Hr) as (Hs & Ha & Hc).
  assert (Hget : forall fp,
             getFingerprint (insertFingerprint t i j fp) i j
             = Z.land fp (fp_mask t) mod 2 ^ Z.of_nat B).
  { intros fp. rewrite get_insert_same by auto. unfold stored.
    apply Z.land_ones. lia. }
  assert (Hpow : 0 < 2 ^ Z.of_nat B) by (apply Z.pow_pos_nonneg; lia).
  split; [|split; [|split]].
  - unfold getFingerprint. rewrite <- Z.land_assoc, Z.land_diag. reflexivity.
  - apply Hc; auto.
  - intros fp. split.
    + rewrite read_insert_same by auto. reflexivity.
    + rewrite Hget. split.
      * intros Heq. rewrite <- Heq. apply Z.mod_pos_bound. exact Hpow.
      * intros Hfit. apply Z.mod_small. exact Hfit.
  - intros Hm fp. rewrite Hget. apply Z.mod_small. split.
    + apply Z.land_nonneg. right. lia.
    + apply Z.le_lt_trans with (fp_mask t); [|lia].
      rewrite Z.land_comm. apply land_le_l. lia.
Qed.

(** Every reachable bucket is clean, so the lookup agrees with the slots
    in every reachable state. *)
Lemma reachable_clean t i :
  reachable t -> (i < table_size t)%nat -> clean t i.
Proof.
  intros Hr Hi. destruct (reachable_invariant t Hr) as (_ & _ & Hc). auto.
Qed.

End Invariant.

(** ** The scenario: lookup and deletion *)

Lemma scenario_full_clean : clean (P := params_4_8) scenario_full 3.
Proof. unfold clean. each_slot. Defined.

Lemma contains_agrees_with_slots_witness :
  containsFingerprint (P := params_4_8) scenario_full 3 0x2C = true
  <-> exists j, (j < 4)%nat /\ getFingerprint (P := params_4_8) scenario_full 3 j = 0x2C.
Proof.
  apply (contains_agrees_with_slots (P := params_4_8) scenario_full 3 0x2C eq_refl).
  exact scenario_full_clean.
Defined.

(** C7 as stated fails where a slot stores bits outside the mask, and where
    the argument has them.  With the 4-bit mask on 8-bit fields: a slot
    holding 0x1A reads 0x0A through [getFingerprint], yet the lookup of 0x0A
    is false; and after [insertFingerprint(3, 0, 0x1A)] the slot reads
    0x1A & fp_mask, yet the lookup of 0x1A is false. *)
Lemma contains_misses_masked_slot :
  (containsFingerprint (P := params_4_8) narrow_raw 3 0x0A = false
   /\ getFingerprint (P := params_4_8) narrow_raw 3 0 = 0x0A)
  /\ (containsFingerprint (P := params_4_8) narrow_inserted 3 0x1A = false
      /\ getFingerprint (P := params_4_8) narrow_inserted 3 0
         = Z.land 0x1A (fp_mask narrow_inserted)).
Proof. vm_compute. repeat split. Qed.

Lemma delete_spec_witness :
  let r := deleteFingerprint (P := params_4_8) scenario_full 0x2A 3 in
  fst r = true
  /\ getFingerprint (P := params_4_8) (snd r) 3 0 = 0
  /\ getFingerprint (P := params_4_8) (snd r) 3 1 = 0x2B
  /\ (containsFingerprint (P := params_4_8) (snd r) 3 0x2A = true ->
      exists j, (j < 4)%nat /\ j <> 0%nat
                /\ getFingerprint (P := params_4_8) scenario_full 3 j = 0x2A).
Proof.
  intros r.
  destruct (delete_spec (P := params_4_8) scenario_full 0x2A 3
              eq_refl scenario_full_allocated scenario_bucket_in_range)
    as (Hfound & _).
  assert (H0 : (0 < 4)%nat) by lia.
  assert (Hfirst : forall j, (j < 0)%nat ->
            getFingerprint (P := params_4_8) scenario_full 3 j <> 0x2A)
    by (intros j Hj; exfalso; lia).
  destruct (Hfound 0%nat H0 eq_refl Hfirst) as (Hret & Hzero & Hother & Hcont).
  split; [exact Hret|]. split; [exact Hzero|]. split.
  - rewrite Hother by (right; discriminate). reflexivity.
  - apply Hcont. discriminate.
Defined.

(** C8 as stated fails for the fingerprint 0: deleting it from a bucket
    whose only empty slot is slot 0 succeeds, and the lookup of 0 is still
    true although no other slot held 0. *)
Lemma delete_zero_still_contained :
  let r := deleteFingerprint (P := params_4_8) scenario_three 0 3 in
  fst r = true
  /\ containsFingerprint (P := params_4_8) (snd r) 3 0 = true
  /\ getFingerprint (P := params_4_8) scenario_three 3 0 = 0
  /\ getFingerprint (P := params_4_8) scenario_three 3 1 = 0x2B
  /\ getFingerprint (P := params_4_8) scenario_three 3 2 = 0x2C
  /\ getFingerprint (P := params_4_8) scenario_three 3 3 = 0x2D.
Proof. vm_compute. repeat split. Qed.

Lemma delete_zero_witness :
  let r := deleteFingerprint (P := params_4_8) scenario_three 0 3 in
  (fst r = true
   <-> (fingerprintCount (P := params_4_8) scenario_three 3 < 4)%nat)
  /\ (forall i' j', getFingerprint (P := params_4_8) (snd r) i' j'
                    = getFingerprint (P := params_4_8) scenario_three i' j')
  /\ (forall i', fingerprintCount (P := params_4_8) (snd r) i'
                 = fingerprintCount (P := params_4_8) scenario_three i')
  /\ (clean (P := params_4_8) scenario_three 3 -> snd r = scenario_three).
Proof.
  exact (delete_zero (P := params_4_8) scenario_three 3
           eq_refl scenario_three_allocated scenario_bucket_in_range).
Defined.

(** The observations of the spec's scenario, on the model. *)
Example scenario_observations :
  getFingerprint (P := params_4_8)
    (insertFingerprint (P := params_4_8) scenario_empty 3 0 0x2A) 3 0 = 0x2A
  /\ getNumOfFreeEntries (P := params_4_8) scenario_empty = 32%nat
  /\ getNumOfFreeEntries (P := params_4_8) scenario_full = 28%nat
  /\ (let r := replacingFingerprintInsertion (P := params_4_8)
                 scenario_full 3 0x2E true 7 1 in
      fst (fst r) = false /\ snd (fst r) = 0x2B
      /\ containsFingerprint (P := params_4_8) (snd r) 3 0x2E = true)
  /\ (let r := deleteFingerprint (P := params_4_8) scenario_full 0x2A 3 in
      fst r = true
      /\ containsFingerprint (P := params_4_8) (snd r) 3 0x2A = false).
Proof. vm_compute. repeat split. Qed.

Lemma scenario_empty_reachable : reachable (P := params_4_8) scenario_empty.
Proof. apply (reach_new 8 0xFF []). reflexivity. Defined.

Lemma scenario_full_reachable : reachable (P := params_4_8) scenario_full.
Proof.
  unfold scenario_full, scenario_three.
  repeat (apply reach_insert; [| cbn; lia | cbn; lia]).
  exact scenario_empty_reachable.
Defined.

Lemma masking_invariant_witness :
  Z.land (getFingerprint (P := params_4_8) scenario_full 3 2) 0xFF
  = getFingerprint (P := params_4_8) scenario_full 3 2
  /\ getFingerprint (P := params_4_8)
       (insertFingerprint (P := params_4_8) scenario_full 3 2 0x12E) 3 2
     = 0x2E.
Proof.
  destruct (masking_invariant (P := params_4_8) scenario_full 3 2
              scenario_full_reachable scenario_bucket_in_range)
    as (Hget & _ & _ & Hins).
  { cbn. lia. }
  split; [exact Hget|].
  apply (Hins ltac:(vm_compute; split; [discriminate | reflexivity]) 0x12E).
Defined.

(** C9 as stated fails where the mask is wider than a field.  The table
    constructed with the 12-bit mask 0xFFF on 8-bit fields is reachable;
    0x1FF & fp_mask is 0x1FF, yet after [insertFingerprint(3, 0, 0x1FF)]
    the slot holds, and [getFingerprint(3, 0)] returns, 0xFF. *)
Lemma insert_wide_mask_cuts_fingerprint :
  new_CuckooTable (P := params_4_8) 8 0xFFF [] = Some wide_empty
  /\ Z.land 0x1FF (fp_mask wide_empty) = 0x1FF
  /\ BitManager.read 8 0 (data (P := params_4_8) wide_inserted 3) = 0xFF
  /\ getFingerprint (P := params_4_8) wide_inserted 3 0 = 0xFF.
Proof. vm_compute. repeat split. Qed.

(* ===================================================================== *)
(** * Facts about [double] arithmetic                                     *)
(* ===================================================================== *)

Module DoubleFacts.
Import HashFunction.

Lemma digits2_size p : digits2_pos p = Pos.size p.
Proof. induction p; simpl; congruence. Qed.

Lemma digits_bounds p :
  2 ^ (Z.pos (digits2_pos p) - 1) <= Z.pos p < 2 ^ Z.pos (digits2_pos p).
Proof.
  rewrite digits2_size. split.
  - pose proof (Pos.size_le p) as H.
    apply Pos2Z.pos_le_pos in H. rewrite Pos2Z.inj_pow in H.
    change (Z.pos p~0) with (2 * Z.pos p) in H.
    replace (Z.pos (Pos.size p)) with (Z.pos (Pos.size p) - 1 + 1) in H at 1 by lia.
    rewrite Z.pow_add_r in H by lia. lia.
  - pose proof (Pos.size_gt p) as H.
    apply Pos2Z.pos_lt_pos in H. rewrite Pos2Z.inj_pow in H. exact H.
Qed.

Lemma shr_1_m mrs : 0 <= shr_m mrs -> shr_m (shr_1 mrs) = shr_m mrs / 2.
Proof.
  destruct mrs as [[|[p|p|]|p] r s]; simpl; intros H; try lia;
    rewrite <- ?Z.div2_div; try reflexivity.
Qed.

Lemma shr_iter_m k : forall mrs,
  0 <= shr_m mrs ->
  shr_m (iter_pos shr_1 k mrs) = shr_m mrs / 2 ^ Z.pos k.
Proof.
  induction k as [k IH | k IH |]; intros mrs Hm; cbn [iter_pos].
  - assert (H1 : 0 <= shr_m (shr_1 mrs))
      by (rewrite shr_1_m by assumption; apply Z.div_pos; lia).
    assert (H2 : 0 <= shr_m (iter_pos shr_1 k (shr_1 mrs)))
      by (rewrite IH by assumption; apply Z.div_pos; lia).
    rewrite IH, IH, shr_1_m by assumption.
    rewrite !Z.div_div by lia. f_equal.
    replace (Z.pos k~1) with (1 + Z.pos k + Z.pos k) by lia.
    rewrite !Z.pow_add_r by lia. lia.
  - assert (H2 : 0 <= shr_m (iter_pos shr_1 k mrs))
      by (rewrite IH by assumption; apply Z.div_pos; lia).
    rewrite IH, IH by assumption.
    rewrite !Z.div_div by lia. f_equal.
    replace (Z.pos k~0) with (Z.pos k + Z.pos k) by lia.
    rewrite !Z.pow_add_r by lia. lia.
  - rewrite shr_1_m by assumption. reflexivity.
Qed.

Lemma shr_record_of_loc_m m l : shr_m (shr_record_of_loc m l) = m.
Proof. destruct l as [|[]]; reflexivity. Qed.

(** The mantissa and exponent [shr] leaves after [n] positions. *)
Lemma shr_m_e mrs e n :
  0 <= shr_m mrs -> 0 <= n ->
  shr_m (fst (shr mrs e n)) = shr_m mrs / 2 ^ n /\ snd (shr mrs e n) = e + n.
Proof.
  intros Hm Hn. destruct n as [|k|k]; simpl; try lia.
  - rewrite Z.div_1_r. split; [reflexivity | lia].
  - split; [apply shr_iter_m; assumption | reflexivity].
Qed.

Lemma round_nearest_even_ge m l : m <= round_nearest_even m l <= m + 1.
Proof. destruct l as [|[]]; simpl; try destruct (Z.even m); lia. Qed.

Section Rounding.
Variable K : Z.
Hypothesis K_nonneg : 0 <= K.

Lemma digits_ge_53 p : 2 ^ 52 <= Z.pos p -> 53 <= Z.pos (digits2_pos p).
Proof.
  intros H. pose proof (digits_bounds p) as [_ Hu].
  destruct (Z.lt_ge_cases (Z.pos (digits2_pos p)) 53) as [Hlt|]; [|assumption].
  assert (2 ^ Z.pos (digits2_pos p) <= 2 ^ 52) by (apply Z.pow_le_mono_r; lia).
  lia.
Qed.

(** [shr_fexp] on a mantissa of at least 53 digits, away from the
    subnormal range: the mantissa loses its digits beyond 53. *)
Lemma shr_fexp_normal p e l :
  let d := Z.pos (digits2_pos p) in
  53 <= d -> -1074 <= d + e - 53 ->
  shr_m (fst (shr_fexp 53 1024 (Z.pos p) e l)) = Z.pos p / 2 ^ (d - 53)
  /\ snd (shr_fexp 53 1024 (Z.pos p) e l) = e + (d - 53).
Proof.
  intros d Hd He. unfold shr_fexp, fexp, emin.
  change (Zdigits2 (Z.pos p)) with d.
  replace (Z.max (d + e - 53) (3 - 1024 - 53) - e) with (d - 53) by lia.
  rewrite <- (shr_record_of_loc_m (Z.pos p) l) at 2.
  apply shr_m_e; [rewrite shr_record_of_loc_m|]; lia.
Qed.

Lemma pow2_pos z : 0 < 2 ^ z \/ z < 0.
Proof.
  destruct (Z.lt_ge_cases z 0); [right; assumption | left; apply Z.pow_pos_nonneg; lia].
Qed.

(** Cutting a mantissa to 53 digits keeps it above an integer bound that
    the exact value is above. *)
Lemma cut_ge p e x :
  let d := Z.pos (digits2_pos p) in
  53 <= d -> -K <= e -> 0 <= x < 2 ^ 52 ->
  x * 2 ^ K <= scaled K (Z.pos p) e ->
  x * 2 ^ K <= scaled K (Z.pos p / 2 ^ (d - 53)) (e + (d - 53)).
Proof.
  intros d Hd HK Hx Hge. unfold scaled in *.
  pose proof (digits_bounds p) as [Hlo _]. fold d in Hlo.
  assert (Hk : 0 < 2 ^ (d - 53)) by (apply Z.pow_pos_nonneg; lia).
  assert (Hm1 : 2 ^ 52 <= Z.pos p / 2 ^ (d - 53)).
  { apply Z.div_le_lower_bound; [exact Hk|].
    rewrite <- Z.pow_add_r by lia.
    replace (d - 53 + 52) with (d - 1) by lia. exact Hlo. }
  destruct (Z.le_gt_cases (e + (d - 53)) 0) as [Hneg | Hpos].
  - (* the bound is a multiple of the last digit kept *)
    set (a := - (e + (d - 53))).
    assert (Hs : 0 < 2 ^ (e + K)) by (apply Z.pow_pos_nonneg; lia).
    assert (Hxa : x * 2 ^ a <= Z.pos p / 2 ^ (d - 53)).
    { apply Z.div_le_lower_bound; [exact Hk|].
      apply Z.mul_le_mono_pos_r with (p := 2 ^ (e + K)); [exact Hs|].
      replace (2 ^ (d - 53) * (x * 2 ^ a) * 2 ^ (e + K))
        with (x * (2 ^ (d - 53) * 2 ^ a * 2 ^ (e + K))) by ring.
      rewrite <- !Z.pow_add_r by (unfold a; lia).
      replace (d - 53 + a + (e + K)) with K by (unfold a; lia).
      exact Hge. }
    replace (2 ^ K) with (2 ^ a * 2 ^ (e + (d - 53) + K))
      by (rewrite <- Z.pow_add_r by (unfold a; lia); f_equal; unfold a; lia).
    rewrite Z.mul_assoc.
    apply Z.mul_le_mono_nonneg_r; [apply Z.pow_nonneg; lia | exact Hxa].
  - (* the value is beyond 2 ^ 52 *)
    assert (HK' : 2 ^ K <= 2 ^ (e + (d - 53) + K))
      by (apply Z.pow_le_mono_r; lia).
    assert (0 < 2 ^ K) by (apply Z.pow_pos_nonneg; lia).
    apply Z.mul_le_mono_nonneg; lia.
Qed.

(** Rounding a positive value of at least 53 digits, away from the
    subnormal range: the result is above every integer below 2 ^ 52 that
    the value is above. *)
Lemma round_aux_ge p e l x :
  let d := Z.pos (digits2_pos p) in
  53 <= d -> -1074 <= d + e - 53 -> -K <= e ->
  0 <= x < 2 ^ 52 ->
  x * 2 ^ K <= scaled K (Z.pos p) e ->
  match binary_round_aux 53 1024 false (Z.pos p) e l with
  | S754_finite false m' e' =>
      x * 2 ^ K <= scaled K (Z.pos m') e' /\ -K <= e'
  | S754_infinity false => True
  | _ => False
  end.
Proof.
  intros d Hd He HK Hx Hge. unfold binary_round_aux.
  pose proof (cut_ge p e x Hd HK Hx Hge) as Hcut. fold d in Hcut.
  destruct (shr_fexp_normal p e l Hd He) as [Hm1 He1]. fold d in Hm1, He1.
  destruct (shr_fexp 53 1024 (Z.pos p) e l) as [mrs1 e1].
  cbn [fst snd] in Hm1, He1.
  rewrite <- Hm1, <- He1 in Hcut.
  pose proof (digits_bounds p) as [Hlo Hhi]. fold d in Hlo, Hhi.
  assert (Hk : 0 < 2 ^ (d - 53)) by (apply Z.pow_pos_nonneg; lia).
  assert (Hm1lo : 2 ^ 52 <= shr_m mrs1).
  { rewrite Hm1. apply Z.div_le_lower_bound; [exact Hk|].
    rewrite <- Z.pow_add_r by lia.
    replace (d - 53 + 52) with (d - 1) by lia. exact Hlo. }
  assert (Hm1hi : shr_m mrs1 < 2 ^ 53).
  { rewrite Hm1. apply Z.div_lt_upper_bound; [exact Hk|].
    rewrite <- Z.pow_add_r by lia.
    replace (d - 53 + 53) with d by lia. exact Hhi. }
  pose proof (round_nearest_even_ge (shr_m mrs1) (loc_of_shr_record mrs1)) as Hr.
  destruct (round_nearest_even (shr_m mrs1) (loc_of_shr_record mrs1))
    as [|p2|p2]; try lia.
  pose proof (digits_bounds p2) as [Hlo2 Hhi2].
  assert (Hd2 : 53 <= Z.pos (digits2_pos p2)) by (apply digits_ge_53; lia).
  assert (Hd2' : Z.pos (digits2_pos p2) <= 54).
  { destruct (Z.le_gt_cases (Z.pos (digits2_pos p2)) 54) as [|Hgt]; [assumption|].
    assert (2 ^ 54 <= 2 ^ (Z.pos (digits2_pos p2) - 1))
      by (apply Z.pow_le_mono_r; lia).
    lia. }
  destruct (shr_fexp_normal p2 e1 loc_Exact Hd2) as [Hm3 He3]; [lia|].
  destruct (shr_fexp 53 1024 (Z.pos p2) e1 loc_Exact) as [mrs3 e3].
  cbn [fst snd] in Hm3, He3.
  assert (Hkey : shr_m mrs1 * 2 ^ (e1 + K) <= shr_m mrs3 * 2 ^ (e3 + K)
                 /\ 2 ^ 52 <= shr_m mrs3).
  { assert (Hs : 0 < 2 ^ (e1 + K)) by (apply Z.pow_pos_nonneg; lia).
    destruct (Z.eq_dec (Z.pos (digits2_pos p2)) 53) as [E53 | N53].
    - rewrite E53 in Hm3, He3. simpl in Hm3. rewrite Z.div_1_r in Hm3.
      rewrite Hm3, He3. replace (e1 + (53 - 53) + K) with (e1 + K) by lia.
      split; [apply Z.mul_le_mono_nonneg_r; lia | lia].
    - assert (E54 : Z.pos (digits2_pos p2) = 54) by lia.
      rewrite E54 in Hm3, He3, Hlo2. simpl in Hlo2.
      assert (Ep2 : Z.pos p2 = 2 ^ 53) by (simpl; lia).
      rewrite Ep2 in Hm3. rewrite Hm3, He3.
      replace (e1 + (54 - 53) + K) with (1 + (e1 + K)) by lia.
      rewrite (Z.pow_add_r 2 1 (e1 + K)) by lia.
      change (2 ^ 53 / 2 ^ (54 - 53)) with (2 ^ 52).
      change (2 ^ 1) with 2.
      split; [|lia].
      replace (2 ^ 52 * (2 * 2 ^ (e1 + K))) with (2 ^ 53 * 2 ^ (e1 + K))
        by (change (2 ^ 53) with (2 * 2 ^ 52); ring).
      apply Z.mul_le_mono_nonneg_r; lia. }
  destruct Hkey as [Hkey Hm3lo].
  destruct (shr_m mrs3) as [|p3|p3]; try (simpl in Hm3lo; lia).
  destruct (e3 <=? 1024 - 53); [|exact I].
  unfold scaled in *. split; lia.
Qed.
End Rounding.

(** A mantissa of exactly 53 digits, in the normal range, is not rounded. *)
Lemma round_aux_exact s p e :
  Z.pos (digits2_pos p) = 53 -> -1074 <= e <= 971 ->
  binary_round_aux 53 1024 s (Z.pos p) e loc_Exact = S754_finite s p e.
Proof.
  intros Hd He. unfold binary_round_aux, shr_fexp, fexp, emin.
  cbn [Zdigits2 shr_record_of_loc]. rewrite Hd.
  replace (Z.max (53 + e - 53) (3 - 1024 - 53) - e) with 0 by lia.
  cbn [shr shr_m loc_of_shr_record round_nearest_even Zdigits2 shr_record_of_loc].
  rewrite Hd.
  replace (Z.max (53 + e - 53) (3 - 1024 - 53) - e) with 0 by lia.
  cbn [shr shr_m].
  replace (e <=? 1024 - 53) with true by (symmetry; apply Z.leb_le; lia).
  reflexivity.
Qed.

Lemma iter_xO_value p n : Z.pos (Pos.iter xO p n) = Z.pos p * 2 ^ Z.pos n.
Proof.
  induction n as [|n IH] using Pos.peano_ind.
  - simpl. lia.
  - rewrite Pos.iter_succ, Pos2Z.inj_xO, IH, Pos2Z.inj_succ, Z.pow_succ_r by lia.
    ring.
Qed.

Lemma iter_xO_digits p n :
  Z.pos (digits2_pos (Pos.iter xO p n)) = Z.pos (digits2_pos p) + Z.pos n.
Proof.
  induction n as [|n IH] using Pos.peano_ind.
  - simpl. lia.
  - rewrite Pos.iter_succ. cbn [digits2_pos].
    rewrite Pos2Z.inj_succ, IH, Pos2Z.inj_succ. lia.
Qed.

(** An integer of at most 53 digits converts exactly: the result is its
    normalised form. *)
Lemma double_of_Z_exact z :
  0 < z < 2 ^ 53 ->
  exists m e,
    double_of_Z z = S754_finite false m e
    /\ Z.pos (digits2_pos m) = 53 /\ -52 <= e <= 0
    /\ Z.pos m = z * 2 ^ (- e)
    /\ Z.log2 z = 52 + e.
Proof.
  intros Hz. destruct z as [|p|p]; try lia.
  unfold double_of_Z, prec, emax, binary_normalize, binary_round, shl_align,
    fexp, emin.
  pose proof (digits_bounds p) as [Hlo Hhi].
  set (d := Z.pos (digits2_pos p)) in *.
  assert (Hd : 1 <= d <= 53).
  { split; [unfold d; lia|].
    destruct (Z.le_gt_cases d 53) as [|Hgt]; [assumption|].
    assert (2 ^ 53 <= 2 ^ (d - 1)) by (apply Z.pow_le_mono_r; lia). lia. }
  assert (Hlog : Z.log2 (Z.pos p) = d - 1).
  { apply Z.log2_unique; [lia|]. replace (Z.succ (d - 1)) with d by lia. lia. }
  replace (Z.max (d + 0 - 53) (3 - 1024 - 53)) with (d - 53) by lia.
  destruct (d - 53 - 0) as [|k|k] eqn:Ek; try lia.
  - exists p, 0. rewrite round_aux_exact by (fold d; lia).
    repeat split; try lia.
  - exists (Pos.iter xO p k), (d - 53).
    rewrite round_aux_exact by (rewrite ?iter_xO_digits; fold d; lia).
    repeat split; try lia.
    + rewrite iter_xO_digits. fold d. lia.
    + rewrite iter_xO_value. do 2 f_equal. lia.
Qed.

(** [double(1LL << 31) / double(d)] is at least 1 for [d] up to 2 ^ 31. *)
Lemma ratio_ge_one d :
  1 <= d <= 2 ^ 31 ->
  match SFdiv 53 1024 (double_of_Z (2 ^ 31)) (double_of_Z d) with
  | S754_finite false m e =>
      1 * 2 ^ 1000 <= scaled 1000 (Z.pos m) e /\ -1000 <= e
  | S754_infinity false => True
  | _ => False
  end.
Proof.
  intros Hd.
  destruct (double_of_Z_exact d) as (mD & eD & -> & HdD & HeD & HmD & Hlog);
    [lia|].
  assert (HeD' : eD <= -21).
  { assert (Z.log2 d <= Z.log2 (2 ^ 31)) by (apply Z.log2_le_mono; lia).
    rewrite Z.log2_pow2 in H by lia. lia. }
  change (double_of_Z (2 ^ 31)) with (S754_finite false 4503599627370496 (-21)).
  unfold SFdiv, SFdiv_core_binary, fexp, emin. cbv zeta.
  cbn [Zdigits2 xorb]. rewrite HdD.
  change (Z.pos (digits2_pos 4503599627370496)) with 53.
  replace (Z.min (Z.max (53 + -21 - (53 + eD) - 53) (3 - 1024 - 53)) (-21 - eD))
    with (-74 - eD) by lia.
  replace (-21 - eD - (-74 - eD)) with 53 by lia.
  change (Z.shiftl 4503599627370496 53) with (2 ^ 105).
  pose proof (Z_div_mod (2 ^ 105) (Z.pos mD) eq_refl) as Hdiv.
  destruct (Z.div_eucl (2 ^ 105) (Z.pos mD)) as [q r].
  destruct Hdiv as [Hq Hr].
  pose proof (digits_bounds mD) as [HloD HhiD]. rewrite HdD in HloD, HhiD.
  assert (Hlow : 2 ^ (74 + eD) <= q).
  { assert (HA : 0 < 2 ^ (- eD)) by (apply Z.pow_pos_nonneg; lia).
    assert (HB : 0 < 2 ^ (74 + eD)) by (apply Z.pow_pos_nonneg; lia).
    assert (HAB : 2 ^ (74 + eD) * 2 ^ (- eD) = 2 ^ 74)
      by (rewrite <- Z.pow_add_r by lia; f_equal; lia).
    destruct (Z.le_gt_cases (2 ^ (74 + eD)) q) as [|Hlt]; [assumption|].
    exfalso.
    assert (H1 : (q + 1) * Z.pos mD <= 2 ^ (74 + eD) * Z.pos mD)
      by (apply Z.mul_le_mono_nonneg_r; lia).
    assert (H2 : 2 ^ (74 + eD) * Z.pos mD = 2 ^ 74 * d)
      by (rewrite HmD, <- HAB; ring).
    assert (H3 : 2 ^ 74 * d <= 2 ^ 74 * 2 ^ 31)
      by (apply Z.mul_le_mono_nonneg_l; lia).
    change (2 ^ 74 * 2 ^ 31) with (2 ^ 105) in H3. lia. }
  assert (Hq52 : 2 ^ 52 <= q).
  { destruct (Z.le_gt_cases (2 ^ 52) q) as [|Hlt]; [assumption|].
    exfalso.
    assert (H1 : (q + 1) * Z.pos mD <= 2 ^ 52 * Z.pos mD)
      by (apply Z.mul_le_mono_nonneg_r; lia).
    assert (H2 : 2 ^ 52 * Z.pos mD < 2 ^ 52 * 2 ^ 53)
      by (apply Z.mul_lt_mono_pos_l; lia).
    change (2 ^ 52 * 2 ^ 53) with (2 ^ 105) in H2. lia. }
  destruct q as [|pq|pq]; try (exfalso; lia).
  assert (Hdq : 53 <= Z.pos (digits2_pos pq)) by (apply digits_ge_53; exact Hq52).
  apply (round_aux_ge 1000); try lia.
  unfold scaled.
  rewrite Z.mul_1_l.
  replace (2 ^ 1000) with (2 ^ (74 + eD) * 2 ^ (-74 - eD + 1000))
    by (rewrite <- Z.pow_add_r by lia; f_equal; lia).
  apply Z.mul_le_mono_nonneg_r; [apply Z.pow_nonneg; lia | exact Hlow].
Qed.

(** The product of the [double] of an integer [x] with a [double] that is
    at least 1 is at least [x]. *)
Lemma product_ge x r :
  0 < x < 2 ^ 52 ->
  match r with
  | S754_finite false m e =>
      1 * 2 ^ 1000 <= scaled 1000 (Z.pos m) e /\ -1000 <= e
  | S754_infinity false => True
  | _ => False
  end ->
  match SFmul 53 1024 (double_of_Z x) r with
  | S754_finite false m e =>
      x * 2 ^ 2000 <= scaled 2000 (Z.pos m) e /\ -2000 <= e
  | S754_infinity false => True
  | _ => False
  end.
Proof.
  intros Hx Hr.
  destruct (double_of_Z_exact x) as (mX & eX & -> & HdX & HeX & HmX & _);
    [lia|].
  destruct r as [ | [|] | | [|] mR eR]; try contradiction; [exact I|].
  destruct Hr as [Hr HeR]. unfold scaled in Hr.
  unfold SFmul. cbn [xorb].
  pose proof (digits_bounds mX) as [HloX _]. rewrite HdX in HloX.
  assert (Hp52 : 2 ^ 52 <= Z.pos (mX * mR)).
  { rewrite Pos2Z.inj_mul.
    replace (2 ^ 52) with (2 ^ 52 * 1) by lia.
    apply Z.mul_le_mono_nonneg; lia. }
  pose proof (digits_ge_53 _ Hp52) as Hdp.
  apply (round_aux_ge 2000); try lia.
  unfold scaled. rewrite Pos2Z.inj_mul, HmX.
  assert (HA : 0 < 2 ^ (eX + 1000)) by (apply Z.pow_pos_nonneg; lia).
  replace (x * 2 ^ 2000)
    with (x * 2 ^ (- eX) * 2 ^ (eX + 1000) * (1 * 2 ^ 1000)).
  2:{ rewrite Z.mul_1_l, <- !Z.mul_assoc, <- !Z.pow_add_r by lia.
      do 2 f_equal. lia. }
  replace (x * 2 ^ (- eX) * Z.pos mR * 2 ^ (eX + eR + 2000))
    with (x * 2 ^ (- eX) * 2 ^ (eX + 1000) * (Z.pos mR * 2 ^ (eR + 1000))).
  2:{ replace (eX + eR + 2000) with ((eX + 1000) + (eR + 1000)) by lia.
      rewrite (Z.pow_add_r 2 (eX + 1000) (eR + 1000)) by lia. ring. }
  apply Z.mul_le_mono_nonneg_l; [|exact Hr].
  apply Z.mul_nonneg_nonneg; [apply Z.mul_nonneg_nonneg|]; try lia.
Qed.

(** The integer part of a value that is at least the integer [x]. *)
Lemma shiftl_ge K m e x :
  0 <= K -> -K <= e -> x * 2 ^ K <= scaled K m e -> x <= Z.shiftl m e.
Proof.
  intros HK He Hge. unfold scaled in Hge.
  assert (HK' : 0 < 2 ^ K) by (apply Z.pow_pos_nonneg; lia).
  destruct (Z.le_gt_cases 0 e) as [Hpos | Hneg].
  - rewrite Z.shiftl_mul_pow2 by lia.
    rewrite Z.pow_add_r, Z.mul_assoc in Hge by lia.
    apply Z.mul_le_mono_pos_r in Hge; assumption.
  - rewrite Z.shiftl_div_pow2 by lia.
    assert (HA : 0 < 2 ^ (- e)) by (apply Z.pow_pos_nonneg; lia).
    assert (HB : 0 < 2 ^ (e + K)) by (apply Z.pow_pos_nonneg; lia).
    apply Z.div_le_lower_bound; [exact HA|].
    apply Z.mul_le_mono_pos_r with (p := 2 ^ (e + K)); [exact HB|].
    replace (2 ^ (- e) * x * 2 ^ (e + K)) with (x * (2 ^ (- e) * 2 ^ (e + K)))
      by ring.
    rewrite <- Z.pow_add_r by lia.
    replace (- e + (e + K)) with K by lia. exact Hge.
Qed.

End DoubleFacts.

(* ===================================================================== *)
(** * Hash and fingerprint derivation                                     *)
(* ===================================================================== *)

Module HashFacts.
Import HashFunction.

(** Applying the derivation twice gives back the low 32 bits of the
    index. *)
Lemma fingerprintComplement_twice index fp :
  fingerprintComplement (fingerprintComplement index fp) fp
  = index mod 2 ^ 32.
Proof.
  unfold fingerprintComplement.
  remember ((fp * MURMUR_CONST) mod 2 ^ 32) as m eqn:Em; clear Em.
  Z.bitblast.
Qed.

(** C4.  For an index that fits 32 bits, applying [fingerprintComplement]
    twice with the same fingerprint returns the index. *)
Theorem fingerprintComplement_involutive index fp :
  0 <= index < 2 ^ 32 ->
  fingerprintComplement (fingerprintComplement index fp) fp = index.
Proof.
  intros H. rewrite fingerprintComplement_twice. apply Z.mod_small. exact H.
Qed.

Lemma fingerprintComplement_involutive_witness :
  fingerprintComplement (fingerprintComplement 5 0x2A) 0x2A = 5.
Proof. apply fingerprintComplement_involutive. lia. Defined.

Lemma uint32_of_double_range x z :
  uint32_of_double x = Some z -> 0 <= z < 2 ^ 32.
Proof.
  unfold uint32_of_double. destruct (truncate x) as [y|]; [|discriminate].
  destruct (0 <=? y) eqn:H0; destruct (y <? 2 ^ 32) eqn:H1;
    simpl; try discriminate.
  intros [= <-]. apply Z.leb_le in H0. apply Z.ltb_lt in H1. lia.
Qed.

Lemma next_j_range b key_val j :
  next_j b key_val = Some j -> 0 <= j < 2 ^ 32.
Proof. apply uint32_of_double_range. Qed.

(** Whatever the loop returns was a candidate below [num_buckets]. *)
Lemma hash_loop_range fuel num_buckets : forall b j key_val r,
  0 <= j ->
  j < num_buckets \/ 0 <= b < num_buckets ->
  hash_loop fuel num_buckets b j key_val = Returns r ->
  0 <= r < num_buckets.
Proof.
  induction fuel as [|fuel IH]; intros b j key_val r Hj Hb; simpl;
    destruct (j <? num_buckets) eqn:Hlt.
  - discriminate.
  - intros [= <-]. apply Z.ltb_ge in Hlt. lia.
  - apply Z.ltb_lt in Hlt.
    destruct (next_j j _) as [j'|] eqn:Hn; [|discriminate].
    apply next_j_range in Hn. apply IH; lia.
  - intros [= <-]. apply Z.ltb_ge in Hlt. lia.
Qed.

(** A [uint32_t] candidate never reaches a bucket count of 2^32 or more:
    the loop does not exit. *)
Lemma hash_loop_stuck fuel num_buckets : forall b j key_val r,
  2 ^ 32 <= num_buckets -> j < 2 ^ 32 ->
  hash_loop fuel num_buckets b j key_val <> Returns r.
Proof.
  induction fuel as [|fuel IH]; intros b j key_val r Hn Hj; simpl;
    (destruct (j <? num_buckets) eqn:Hlt;
     [| apply Z.ltb_ge in Hlt; lia]).
  - discriminate.
  - destruct (next_j j _) as [j'|] eqn:Hnext; [|discriminate].
    apply next_j_range in Hnext. apply IH; lia.
Qed.

(** Where the conversion is defined, the candidate index grows: the
    quotient is at least 1.0, so the product is at least [b + 1]. *)
Lemma next_j_increases b key_val j :
  0 <= b < 2 ^ 32 - 1 -> 0 <= key_val < 2 ^ 64 ->
  next_j b key_val = Some j -> b < j.
Proof.
  intros Hb Hk. unfold next_j.
  rewrite (Z.mod_small (b + 1)) by lia.
  assert (Hd : 1 <= Z.shiftr key_val 33 + 1 <= 2 ^ 31).
  { rewrite Z.shiftr_div_pow2 by lia.
    assert (0 <= key_val / 2 ^ 33) by (apply Z.div_pos; lia).
    assert (key_val / 2 ^ 33 < 2 ^ 31)
      by (apply Z.div_lt_upper_bound; [lia | change (2 ^ 33 * 2 ^ 31) with (2 ^ 64); lia]).
    lia. }
  pose proof (DoubleFacts.ratio_ge_one _ Hd) as Hr.
  assert (Hx : 0 < b + 1 < 2 ^ 52) by lia.
  unfold double_mul, double_div, prec, emax.
  set (r := SFdiv 53 1024 (double_of_Z (2 ^ 31))
              (double_of_Z (Z.shiftr key_val 33 + 1))) in *.
  pose proof (DoubleFacts.product_ge (b + 1) r Hx Hr) as Hp.
  destruct (SFmul 53 1024 (double_of_Z (b + 1)) r) as [s | s | | s m e].
  1, 3: destruct Hp.
  { intros H. cbv [uint32_of_double truncate] in H. discriminate H. }
  destruct s; [destruct Hp|].
  destruct Hp as [Hp He].
  unfold uint32_of_double, truncate. cbn [cond_Zopp].
  pose proof (DoubleFacts.shiftl_ge 2000 (Z.pos m) e (b + 1)) as Hge.
  destruct ((0 <=? Z.shiftl (Z.pos m) e) && (Z.shiftl (Z.pos m) e <? 2 ^ 32));
    [|discriminate].
  intros [= <-].
  assert (Hj : b + 1 <= Z.shiftl (Z.pos m) e)
    by (apply Hge; [lia | exact He | exact Hp]).
  clear - Hj. lia.
Qed.

(** Below 2^32 buckets the loop cannot go on: within [num_buckets - j]
    iterations it returns or meets the undefined conversion. *)
Lemma hash_loop_ends fuel num_buckets : forall b j key_val,
  num_buckets < 2 ^ 32 -> 0 <= j ->
  num_buckets - j <= Z.of_nat fuel ->
  hash_loop fuel num_buckets b j key_val <> OutOfFuel.
Proof.
  induction fuel as [|fuel IH]; intros b j key_val Hn Hj Hfuel; simpl;
    destruct (j <? num_buckets) eqn:Hlt; try discriminate.
  - apply Z.ltb_lt in Hlt. lia.
  - apply Z.ltb_lt in Hlt.
    destruct (next_j j _) as [j'|] eqn:Hnext; [|discriminate].
    apply next_j_increases in Hnext;
      [| lia | apply Z.mod_pos_bound; lia].
    apply IH; lia.
Qed.

Section Hash.
Variable std_hash : Z -> Z.

(** With fewer than 2^32 buckets, [hash] ends within [num_buckets]
    iterations for every key: it returns an index in
    [0, num_buckets), or it meets a conversion of an out-of-range
    [double] to [uint32_t]. *)
Theorem hash_below_u32 key num_buckets :
  0 < num_buckets < 2 ^ 32 ->
  match hash std_hash (Z.to_nat num_buckets) key num_buckets with
  | Returns r => 0 <= r < num_buckets
  | Undefined => True
  | OutOfFuel => False
  end.
Proof.
  intros Hn.
  destruct (hash std_hash (Z.to_nat num_buckets) key num_buckets)
    as [r| |] eqn:Hrun.
  - unfold hash in Hrun. apply hash_loop_range in Hrun; lia.
  - exact I.
  - unfold hash in Hrun. apply hash_loop_ends in Hrun; lia.
Qed.

(** On every run, an index that [hash] returns lies in
    [0, num_buckets). *)
Theorem hash_in_range fuel key num_buckets r :
  0 < num_buckets ->
  hash std_hash fuel key num_buckets = Returns r ->
  0 <= r < num_buckets.
Proof.
  intros Hn. unfold hash. apply hash_loop_range; lia.
Qed.

(** C6.  The claim fails for every key once [num_buckets] is 2^32 or
    more: the [uint32_t] candidate [j] stays below [num_buckets], so
    the loop does not exit, and no number of iterations makes [hash]
    return. *)
Theorem hash_never_returns fuel key num_buckets r :
  2 ^ 32 <= num_buckets ->
  hash std_hash fuel key num_buckets <> Returns r.
Proof.
  intros Hn. unfold hash. apply hash_loop_stuck; lia.
Qed.
End Hash.

Lemma hash_in_range_witness :
  hash identity_hash 3 2 8 = Returns 6 /\ 0 <= 6 < 8.
Proof.
  split; [vm_compute; reflexivity|].
  apply (hash_in_range identity_hash 3 2 8 6); [lia|].
  vm_compute. reflexivity.
Defined.

Lemma hash_never_returns_witness :
  hash identity_hash 64 0 4294967297 <> Returns 0.
Proof. apply hash_never_returns. lia. Defined.

(** C5.  The claim fails where the candidate index leaves [uint32_t].
    With two buckets and the key 2421959463900014564 (under the identity
    [std::hash]) the first iteration gives [j = 1] and the second
    computes 2.0 * 2147483648.0 = 4294967296.0, which is no [uint32_t]:
    the conversion is undefined and [hash] returns no index.  With
    2^32 + 1 buckets and the key 0 the same happens in the second
    iteration. *)
Lemma hash_undefined_conversion :
  hash identity_hash 2 2421959463900014564 2 = Undefined
  /\ next_j 0 16133697096952638549 = Some 1
  /\ double_mul (double_of_Z 2)
       (double_div (double_of_Z (2 ^ 31)) (double_of_Z 1))
     = double_of_Z (2 ^ 32)
  /\ hash identity_hash 2 0 4294967297 = Undefined.
Proof. vm_compute. repeat split. Qed.

End HashFacts.


(* ===================================================================== *)
(** * Further properties of the bucket table                              *)
(* ===================================================================== *)

Section SumFacts.

Lemma fold_free (f : nat -> Z) (l : list nat) : forall acc,
  Nat.add
    (fold_left (fun free j => if f j =? 0 then S free else free) l acc)
    (length (filter (fun j => negb (f j =? 0)) l))
  = Nat.add acc (length l).
Proof.
  induction l as [|x l IH]; intros acc; simpl.
  - lia.
  - destruct (f x =? 0); simpl.
    + rewrite IH. lia.
    + rewrite Nat.add_succ_r, IH. lia.
Qed.

Lemma fold_add (g : nat -> nat) (l : list nat) : forall acc,
  fold_left (fun free i => Nat.add free (g i)) l acc
  = Nat.add acc (list_sum (map g l)).
Proof.
  induction l as [|x l IH]; intros acc; simpl.
  - lia.
  - rewrite IH. lia.
Qed.

Lemma fold_left_agree {A} (f g : A -> nat -> A) (l : list nat) :
  (forall a x, f a x = g a x) ->
  forall acc, fold_left f l acc = fold_left g l acc.
Proof.
  intros H. induction l as [|x l IH]; intros acc; simpl; [reflexivity|].
  rewrite H. apply IH.
Qed.

(** A sum over [0, n) whose terms change at the single index [i0]. *)
Lemma list_sum_update (g h : nat -> nat) n i0 :
  (i0 < n)%nat ->
  (forall i, (i < n)%nat -> i <> i0 -> h i = g i) ->
  (list_sum (map h (seq 0 n)) + g i0 = list_sum (map g (seq 0 n)) + h i0)%nat.
Proof.
  intros Hi Hsame.
  replace n with (i0 + (1 + (n - S i0)))%nat by lia.
  rewrite !seq_app, !map_app, !list_sum_app. simpl.
  rewrite (map_ext_in h g (seq 0 i0)).
  2:{ intros x Hx. apply in_seq in Hx. apply Hsame; lia. }
  rewrite (map_ext_in h g (seq (i0 + 1) (n - S i0))).
  2:{ intros x Hx. apply in_seq in Hx. apply Hsame; lia. }
  lia.
Qed.

Lemma list_sum_complement (c : nat -> nat) (e : nat) (l : list nat) :
  (forall i, In i l -> (c i <= e)%nat) ->
  (list_sum (map (fun i => e - c i) l) + list_sum (map c l)
   = e * length l)%nat.
Proof.
  induction l as [|x l IH]; intros H; simpl.
  - lia.
  - specialize (IH (fun i Hi => H i (or_intror Hi))).
    pose proof (H x (or_introl eq_refl)). lia.
Qed.

Lemma occupied_zero (f : nat -> Z) n :
  (forall j, (j < n)%nat -> f j = 0) -> occupied f n = 0%nat.
Proof.
  intros H. pose proof (occupied_le f n) as Hle.
  destruct (occupied f n) as [|k] eqn:Ho; [reflexivity|].
  exfalso. unfold occupied in Ho.
  destruct (filter _ _) as [|x l] eqn:Hf; [discriminate|].
  assert (Hin : In x (filter (fun j => negb (f j =? 0)) (seq 0 n)))
    by (rewrite Hf; left; reflexivity).
  apply filter_In in Hin. destruct Hin as [Hin Hx].
  apply in_seq in Hin. rewrite H in Hx by lia. discriminate.
Qed.

End SumFacts.

Section TableExtras.
Context {P : TableParams}.
Import BitManager BitManagerFacts.

Local Abbreviation E := entries_per_bucket.
Local Abbreviation B := bits_per_fp.
Local Abbreviation bpb := bytes_per_bucket.

(** A second write into a field replaces the first. *)
Lemma write_write bits slot d a b :
  write bits slot (write bits slot d a) b = write bits slot d b.
Proof.
  unfold write. rewrite length_le_split, le_combine_split.
  rewrite (le_split_mod (Z.lor (Z.ldiff (_ mod _) _) _)).
  rewrite (le_split_mod (Z.lor (Z.ldiff (le_combine d) _) _)).
  f_equal.
  forget_nat (slot * bits)%nat o. forget_nat bits w.
  assert (Hn : 0 <= Z.of_nat (length d) * 8) by lia.
  remember (Z.of_nat (length d) * 8) as n eqn:En; clear En.
  remember (le_combine d) as x eqn:Ex; clear Ex.
  Z.bitblast.
Qed.

Lemma set_data_twice t i d1 d2 :
  allocated t -> (i < table_size t)%nat -> length d1 = bpb ->
  set_data (set_data t i d1) i d2 = set_data t i d2.
Proof.
  intros Ha Hi Hd. pose proof (bucket_in_bounds t i Ha Hi) as Hb.
  unfold set_data; simpl. f_equal.
  assert (Hlen : length (firstn (i * bpb) (buckets t)) = (i * bpb)%nat)
    by (rewrite length_firstn; lia).
  rewrite firstn_app, Hlen, Nat.sub_diag, firstn_0, app_nil_r.
  rewrite firstn_firstn, Nat.min_id.
  rewrite skipn_past_prefix by lia.
  rewrite skipn_past_prefix by lia.
  rewrite Hlen, Hd.
  replace (i * bpb + bpb - i * bpb - bpb)%nat with 0%nat by lia.
  reflexivity.
Qed.

Lemma new_read_zero size mask behind t i j :
  new_CuckooTable size mask behind = Some t -> (i < size)%nat ->
  read B j (data t i) = 0.
Proof.
  unfold new_CuckooTable. destruct supported; [|discriminate].
  intros [= <-] Hi. unfold read, data; simpl.
  assert (Hm : (i * bpb + bpb <= bpb * size)%nat).
  { pose proof (Nat.mul_le_mono_r (S i) size bpb Hi) as Hm.
    rewrite Nat.mul_succ_l in Hm. lia. }
  rewrite window_in_prefix by (rewrite repeat_length; lia).
  rewrite zero_bytes_combine.
  - unfold field. rewrite Z.shiftr_0_l. reflexivity.
  - intros x Hx. apply In_window in Hx. apply repeat_spec in Hx. exact Hx.
Qed.

(** The free entries, bucket by bucket. *)
Lemma free_entries_sum t :
  getNumOfFreeEntries t
  = list_sum (map (fun i => (E - fingerprintCount t i)%nat)
                (seq 0 (table_size t))).
Proof.
  unfold getNumOfFreeEntries.
  rewrite (fold_left_agree _
             (fun free i => Nat.add free (E - fingerprintCount t i))).
  - rewrite fold_add. reflexivity.
  - intros acc i.
    pose proof (fold_free (getFingerprint t i) (seq 0 E) acc) as Hf.
    rewrite length_seq in Hf.
    pose proof (occupied_le (getFingerprint t i) E) as Hle.
    rewrite fingerprintCount_occupied. unfold occupied in *. lia.
Qed.

(** X2.  The count of a bucket is at most [entries_per_bucket]; it is
    [entries_per_bucket] exactly when no slot reads 0, and 0 exactly when
    every slot reads 0. *)
Theorem count_bounds t i :
  (fingerprintCount t i <= E)%nat
  /\ (fingerprintCount t i = E <-> full t i)
  /\ (fingerprintCount t i = 0%nat
      <-> forall j, (j < E)%nat -> getFingerprint t i j = 0).
Proof.
  rewrite fingerprintCount_occupied.
  pose proof (occupied_le (getFingerprint t i) E) as Hle.
  pose proof (occupied_lt_iff (getFingerprint t i) E) as Hlt.
  split; [exact Hle|]. split; split.
  - intros Heq j Hj Hz. assert ((occupied (getFingerprint t i) E < E)%nat)
      by (apply Hlt; eauto). lia.
  - intros Hf. rewrite <- fingerprintCount_occupied. apply full_count, Hf.
  - intros Hz j Hj.
    destruct (getFingerprint t i j =? 0) eqn:Hj0; [apply Z.eqb_eq, Hj0|].
    exfalso. unfold occupied in Hz. apply length_zero_iff_nil in Hz.
    assert (Hin : In j (filter (fun j => negb (getFingerprint t i j =? 0))
                          (seq 0 E))).
    { apply filter_In. split; [apply in_seq; lia | rewrite Hj0; reflexivity]. }
    rewrite Hz in Hin. destruct Hin.
  - apply occupied_zero.
Qed.

(** X3.  Whatever the fingerprint, the [eject] flag and the random draw,
    [replacingFingerprintInsertion] returns true exactly when the count of
    the bucket is below [entries_per_bucket]. *)
Theorem insertion_succeeds_iff_room t i fp eject prev rnd :
  fst (fst (replacingFingerprintInsertion t i fp eject prev rnd)) = true
  <-> (fingerprintCount t i < E)%nat.
Proof.
  rewrite fingerprintCount_occupied, occupied_lt_iff.
  unfold replacingFingerprintInsertion.
  destruct (find _ _) as [j|] eqn:Hfind.
  - apply find_seq_some in Hfind. destruct Hfind as (Hj & Hz & _).
    apply Z.eqb_eq in Hz. simpl. split; eauto.
  - split.
    + destruct eject; simpl; discriminate.
    + intros (j & Hj & Hz).
      pose proof (find_seq_none _ _ Hfind j Hj) as Hn.
      apply Z.eqb_neq in Hn. contradiction.
Qed.

(** X4.  When [j0] is the first slot of bucket [i] that reads 0,
    [replacingFingerprintInsertion] writes there and nowhere else: it
    returns true with [prev_fp] untouched, slot [j0] then reads the stored
    fingerprint, and every other slot of the table reads what it read. *)
Theorem insertion_first_empty t i fp eject prev rnd j0 :
  supported = true -> allocated t -> (i < table_size t)%nat ->
  (j0 < E)%nat -> getFingerprint t i j0 = 0 ->
  (forall j, (j < j0)%nat -> getFingerprint t i j <> 0) ->
  let r := replacingFingerprintInsertion t i fp eject prev rnd in
  r = (true, prev, insertFingerprint t i j0 fp)
  /\ getFingerprint (snd r) i j0 = stored t fp
  /\ (forall i' j', i' <> i \/ j' <> j0 ->
        getFingerprint (snd r) i' j' = getFingerprint t i' j').
Proof.
  intros Hs Ha Hi Hj0 Hz Hfirst r. subst r.
  unfold replacingFingerprintInsertion.
  destruct (find _ _) as [j|] eqn:Hfind.
  2:{ pose proof (find_seq_none _ _ Hfind j0 Hj0) as Hn.
      apply Z.eqb_neq in Hn. contradiction. }
  apply find_seq_some in Hfind. destruct Hfind as (Hj & Hzj & Hlow).
  apply Z.eqb_eq in Hzj.
  assert (j = j0) as ->.
  { destruct (Nat.lt_trichotomy j j0) as [Hlt | [Heq | Hgt]]; auto.
    - destruct (Hfirst j Hlt Hzj).
    - specialize (Hlow j0 Hgt). apply Z.eqb_neq in Hlow. contradiction. }
  simpl. split; [reflexivity|]. split.
  - apply get_insert_same; auto.
  - intros i' j' Hne. apply get_insert_other; auto.
Qed.

Lemma find_seq_first (p : nat -> bool) n j0 :
  (j0 < n)%nat -> p j0 = true ->
  (forall j, (j < j0)%nat -> p j = false) ->
  find p (seq 0 n) = Some j0.
Proof.
  intros Hj Hp Hlow.
  destruct (find_seq_exists p n j0 Hj Hp) as (j & Hfind).
  rewrite Hfind. f_equal.
  apply find_seq_some in Hfind. destruct Hfind as (_ & Hpj & Hlowj).
  destruct (Nat.lt_trichotomy j j0) as [Hlt | [Heq | Hgt]]; auto.
  - rewrite Hlow in Hpj by assumption. discriminate.
  - rewrite Hlowj in Hp by assumption. discriminate.
Qed.

Lemma insert_insert t i j fp1 fp2 :
  allocated t -> (i < table_size t)%nat ->
  insertFingerprint (insertFingerprint t i j fp1) i j fp2
  = insertFingerprint t i j fp2.
Proof.
  intros Ha Hi. unfold insertFingerprint at 1.
  change (fp_mask (insertFingerprint t i j fp1)) with (fp_mask t).
  unfold insertFingerprint at 2.
  rewrite data_set_data_same
    by (auto; rewrite write_length; apply data_length; auto).
  rewrite write_write. unfold insertFingerprint.
  apply set_data_twice; auto.
  rewrite write_length. apply data_length; auto.
Qed.

(** Clearing a slot that stores 0 changes nothing. *)
Lemma insert_zero_noop t i j :
  read B j (data t i) = 0 -> insertFingerprint t i j 0 = t.
Proof.
  intros Hz. unfold insertFingerprint.
  rewrite write_same_field; [apply set_data_same|].
  rewrite Hz. reflexivity.
Qed.

Lemma count_insert_other t i j fp i' :
  allocated t -> (i < table_size t)%nat -> i' <> i ->
  fingerprintCount (insertFingerprint t i j fp) i' = fingerprintCount t i'.
Proof.
  intros Ha Hi Hne. rewrite !fingerprintCount_occupied. unfold occupied.
  apply filter_length_agree. intros x _.
  rewrite get_insert_other by auto. reflexivity.
Qed.

Lemma capacity_split t :
  (getNumOfFreeEntries t + storedFingerprints t = E * table_size t)%nat.
Proof.
  rewrite free_entries_sum. unfold storedFingerprints.
  rewrite list_sum_complement, length_seq; [reflexivity|].
  intros i _. rewrite fingerprintCount_occupied. apply occupied_le.
Qed.

(** How a write into one slot moves the totals of the table. *)
Lemma totals_insert t i j fp :
  supported = true -> allocated t -> (i < table_size t)%nat -> (j < E)%nat ->
  (storedFingerprints (insertFingerprint t i j fp)
   + nonzero (getFingerprint t i j)
   = storedFingerprints t + nonzero (stored t fp))%nat
  /\ (getNumOfFreeEntries (insertFingerprint t i j fp) + nonzero (stored t fp)
      = getNumOfFreeEntries t + nonzero (getFingerprint t i j))%nat.
Proof.
  intros Hs Ha Hi Hj.
  pose proof (count_insert t i j fp Hs Ha Hi Hj) as Hc.
  pose proof (list_sum_update (fingerprintCount t)
                (fingerprintCount (insertFingerprint t i j fp))
                (table_size t) i Hi) as Hsum.
  assert (Hst : (storedFingerprints (insertFingerprint t i j fp)
                 + fingerprintCount t i
                 = storedFingerprints t
                   + fingerprintCount (insertFingerprint t i j fp) i)%nat).
  { unfold storedFingerprints.
    change (table_size (insertFingerprint t i j fp)) with (table_size t).
    apply Hsum. intros i' _ Hne. apply count_insert_other; auto. }
  pose proof (capacity_split t) as H1.
  pose proof (capacity_split (insertFingerprint t i j fp)) as H2.
  change (table_size (insertFingerprint t i j fp)) with (table_size t) in H2.
  split; lia.
Qed.

(** X1.  A constructed table is empty: it has the size and mask given,
    its buckets lie in the memory allocated, every slot reads 0, every
    count is 0, all [maxNoOfElements] entries are free, and no fingerprint
    other than 0 is found in any bucket. *)
Theorem new_table_empty size mask behind t :
  new_CuckooTable size mask behind = Some t ->
  getTableSize t = size /\ fp_mask t = mask /\ allocated t
  /\ (forall i j, (i < size)%nat -> getFingerprint t i j = 0)
  /\ (forall i, (i < size)%nat -> fingerprintCount t i = 0%nat)
  /\ getNumOfFreeEntries t = maxNoOfElements t
  /\ (forall i fp, (i < size)%nat -> fp <> 0 ->
        containsFingerprint t i fp = false).
Proof.
  intros Hnew.
  assert (Hsize : table_size t = size /\ fp_mask t = mask
                  /\ supported = true).
  { unfold new_CuckooTable in Hnew. destruct supported; [|discriminate].
    injection Hnew as <-. auto. }
  destruct Hsize as (Hsize & Hmask & Hs).
  destruct (new_invariant _ _ _ _ Hnew) as (_ & Ha & _).
  assert (Hget : forall i j, (i < size)%nat -> getFingerprint t i j = 0).
  { intros i j Hi. unfold getFingerprint.
    rewrite (new_read_zero _ _ _ _ i j Hnew Hi). reflexivity. }
  assert (Hcount : forall i, (i < size)%nat -> fingerprintCount t i = 0%nat).
  { intros i Hi. rewrite fingerprintCount_occupied. apply occupied_zero.
    intros j _. apply Hget, Hi. }
  repeat split; auto.
  - pose proof (capacity_split t) as Hcap.
    assert (Hst : storedFingerprints t = 0%nat).
    { unfold storedFingerprints. rewrite Hsize.
      rewrite (map_ext_in _ (fun _ => 0%nat)).
      - clear. induction (seq 0 size); simpl; auto.
      - intros i Hi. apply in_seq in Hi. apply Hcount. lia. }
    unfold maxNoOfElements. lia.
  - intros i fp Hi Hfp.
    destruct (containsFingerprint t i fp) eqn:Hc; [|reflexivity].
    apply contains_iff_read in Hc; [|exact Hs].
    destruct Hc as (j & _ & Hr).
    rewrite (new_read_zero _ _ _ _ i j Hnew Hi) in Hr. congruence.
Qed.

(** X5.  Every slot is either free or counted: the free entries and the
    counts of all buckets add up to [maxNoOfElements]. *)
Theorem free_plus_stored t :
  (getNumOfFreeEntries t + storedFingerprints t = maxNoOfElements t)%nat.
Proof. unfold maxNoOfElements. apply capacity_split. Qed.

(** X6.  An insertion that returns true and stores a value other than 0
    takes exactly one free entry: the free entries of the table go down by
    one and its stored fingerprints go up by one. *)
Theorem insertion_takes_one_free t i fp eject prev rnd :
  supported = true -> allocated t -> (i < table_size t)%nat ->
  stored t fp <> 0 ->
  let r := replacingFingerprintInsertion t i fp eject prev rnd in
  fst (fst r) = true ->
  S (getNumOfFreeEntries (snd r)) = getNumOfFreeEntries t
  /\ storedFingerprints (snd r) = S (storedFingerprints t).
Proof.
  intros Hs Ha Hi Hnz r. subst r. unfold replacingFingerprintInsertion.
  destruct (find _ _) as [j|] eqn:Hfind.
  2:{ destruct eject; simpl; discriminate. }
  simpl. intros _.
  apply find_seq_some in Hfind. destruct Hfind as (Hj & Hz & _).
  apply Z.eqb_eq in Hz.
  destruct (totals_insert t i j fp Hs Ha Hi Hj) as (Hst & Hfree).
  rewrite Hz in Hst, Hfree. unfold nonzero in Hst, Hfree.
  apply Z.eqb_neq in Hnz. rewrite Hnz in Hst, Hfree. simpl in Hst, Hfree.
  split; lia.
Qed.

(** X7.  A deletion of a fingerprint other than 0 that returns true frees
    exactly one entry: the count of the bucket goes down by one, the
    counts of the other buckets stay, and the free entries of the table go
    up by one. *)
Theorem delete_frees_one t fp i :
  supported = true -> allocated t -> (i < table_size t)%nat ->
  fp <> 0 ->
  let r := deleteFingerprint t fp i in
  fst r = true ->
  S (fingerprintCount (snd r) i) = fingerprintCount t i
  /\ (forall i', i' <> i ->
        fingerprintCount (snd r) i' = fingerprintCount t i')
  /\ getNumOfFreeEntries (snd r) = S (getNumOfFreeEntries t).
Proof.
  intros Hs Ha Hi Hnz r. subst r. unfold deleteFingerprint.
  destruct (find _ _) as [j|] eqn:Hfind; [|simpl; discriminate].
  simpl. intros _.
  apply find_seq_some in Hfind. destruct Hfind as (Hj & Hz & _).
  apply Z.eqb_eq in Hz.
  pose proof (count_insert t i j 0 Hs Ha Hi Hj) as Hc.
  destruct (totals_insert t i j 0 Hs Ha Hi Hj) as (_ & Hfree).
  rewrite Hz, stored_zero in Hc, Hfree. unfold nonzero in Hc, Hfree.
  apply Z.eqb_neq in Hnz. rewrite Hnz in Hc, Hfree. simpl in Hc, Hfree.
  split; [lia|]. split; [|lia].
  intros i' Hne. apply count_insert_other; auto.
Qed.

Lemma contains_insert_other t i j v i' fp :
  supported = true -> allocated t -> (i < table_size t)%nat -> i' <> i ->
  containsFingerprint (insertFingerprint t i j v) i' fp
  = containsFingerprint t i' fp.
Proof.
  intros Hs Ha Hi Hne. apply Bool.eq_iff_eq_true.
  rewrite !contains_iff_read by assumption.
  split; intros (j' & Hj' & Hr); exists j'; split; auto.
  - rewrite read_insert_other in Hr by auto. exact Hr.
  - rewrite read_insert_other by auto. exact Hr.
Qed.

(** On a clean bucket a slot that reads 0 stores 0. *)
Lemma clean_zero t i j :
  clean t i -> (j < E)%nat -> getFingerprint t i j = 0 ->
  read B j (data t i) = 0.
Proof.
  intros Hc Hj Hz. unfold getFingerprint in Hz.
  rewrite Hc in Hz by assumption. exact Hz.
Qed.

(** X9.  Two [insertFingerprint] calls at the same slot leave the table of
    the second call alone: the last write wins, byte for byte. *)
Theorem insert_overwrites t i j fp1 fp2 :
  allocated t -> (i < table_size t)%nat ->
  insertFingerprint (insertFingerprint t i j fp1) i j fp2
  = insertFingerprint t i j fp2.
Proof. apply insert_insert. Qed.

(** X8.  Inserting a fingerprint and deleting it again is a round trip.
    On a bucket that stores no bit outside the mask, after an insertion
    that returns true of a fingerprint [fp] other than 0 that is stored as
    it is, [deleteFingerprint(fp, i)] returns true and the count of the
    bucket is what it was before the insertion; if no slot of the bucket
    held [fp] before, the table is back to what it was, byte for byte. *)
Theorem insert_delete_round_trip t i fp eject prev rnd :
  supported = true -> allocated t -> (i < table_size t)%nat ->
  clean t i -> stored t fp = fp -> fp <> 0 ->
  let r := replacingFingerprintInsertion t i fp eject prev rnd in
  fst (fst r) = true ->
  let d := deleteFingerprint (snd r) fp i in
  fst d = true
  /\ fingerprintCount (snd d) i = fingerprintCount t i
  /\ ((forall j, (j < E)%nat -> getFingerprint t i j <> fp) -> snd d = t).
Proof.
  intros Hs Ha Hi Hc Hst Hnz r Hr d. subst r d. revert Hr.
  unfold replacingFingerprintInsertion.
  destruct (find _ _) as [j0|] eqn:Hfind.
  2:{ destruct eject; simpl; discriminate. }
  intros _. cbn [fst snd].
  apply find_seq_some in Hfind. destruct Hfind as (Hj0 & Hz & _).
  apply Z.eqb_eq in Hz.
  set (t' := insertFingerprint t i j0 fp).
  assert (Ha' : allocated t') by (apply insert_allocated; auto).
  assert (Hi' : (i < table_size t')%nat) by exact Hi.
  assert (Hat : getFingerprint t' i j0 = fp)
    by (unfold t'; rewrite get_insert_same by auto; exact Hst).
  pose proof (count_insert t i j0 fp Hs Ha Hi Hj0) as Hc1. fold t' in Hc1.
  rewrite Hz, Hst in Hc1. unfold nonzero in Hc1.
  apply Z.eqb_neq in Hnz. rewrite Hnz in Hc1. simpl in Hc1.
  unfold deleteFingerprint.
  destruct (find_seq_exists (fun j => getFingerprint t' i j =? fp) E j0 Hj0)
    as (j1 & Hfind1); [apply Z.eqb_eq, Hat|].
  rewrite Hfind1. simpl.
  apply find_seq_some in Hfind1. destruct Hfind1 as (Hj1 & Hz1 & _).
  apply Z.eqb_eq in Hz1.
  split; [reflexivity|]. split.
  - pose proof (count_insert t' i j1 0 Hs Ha' Hi' Hj1) as Hc2.
    rewrite Hz1, stored_zero in Hc2. unfold nonzero in Hc2.
    rewrite Hnz in Hc2. simpl in Hc2. lia.
  - intros Habsent.
    assert (j1 = j0) as ->.
    { destruct (Nat.eq_dec j1 j0) as [|Hne]; [assumption|].
      exfalso. apply (Habsent j1 Hj1). rewrite <- Hz1.
      unfold t'. symmetry. apply get_insert_other; auto. }
    unfold t'. rewrite insert_insert by auto.
    apply insert_zero_noop. apply clean_zero; auto.
Qed.

(** X10.  On two buckets that store no bit outside the mask, the
    two-bucket [containsFingerprint(i1, i2, fp)] is true exactly when a
    slot of bucket [i1] or a slot of bucket [i2] reads [fp]. *)
Theorem contains_either_agrees_with_slots t i1 i2 fp :
  supported = true -> clean t i1 -> clean t i2 ->
  containsFingerprint2 t i1 i2 fp = true
  <-> exists j, (j < E)%nat
        /\ (getFingerprint t i1 j = fp \/ getFingerprint t i2 j = fp).
Proof.
  intros Hs Hc1 Hc2. unfold containsFingerprint2.
  rewrite orb_true_iff.
  change (hasvalue E B (load_u64 t i1) fp) with (containsFingerprint t i1 fp).
  change (hasvalue E B (load_u64 t i2) fp) with (containsFingerprint t i2 fp).
  rewrite !contains_iff_read by assumption. unfold getFingerprint.
  split.
  - intros [(j & Hj & Hr) | (j & Hj & Hr)]; exists j; split; auto.
    + left. rewrite Hc1 by assumption. exact Hr.
    + right. rewrite Hc2 by assumption. exact Hr.
  - intros (j & Hj & [Hr | Hr]); [left | right]; exists j; split; auto.
    + rewrite <- Hc1 by assumption. exact Hr.
    + rewrite <- Hc2 by assumption. exact Hr.
Qed.

(** X11.  A change in one bucket is not seen by the lookup in another:
    although [containsFingerprint] loads 64 bits, which reach into the
    buckets that follow, its answer for bucket [i'] is the same before and
    after [insertFingerprint], [replacingFingerprintInsertion] or
    [deleteFingerprint] on a bucket [i] other than [i']. *)
Theorem lookup_frame t i i' fp' :
  supported = true -> allocated t -> (i < table_size t)%nat -> i' <> i ->
  (forall j v,
      containsFingerprint (insertFingerprint t i j v) i' fp'
      = containsFingerprint t i' fp')
  /\ (forall fp eject prev rnd,
        containsFingerprint
          (snd (replacingFingerprintInsertion t i fp eject prev rnd)) i' fp'
        = containsFingerprint t i' fp')
  /\ (forall fp,
        containsFingerprint (snd (deleteFingerprint t fp i)) i' fp'
        = containsFingerprint t i' fp').
Proof.
  intros Hs Ha Hi Hne. split; [|split].
  - intros j v. apply contains_insert_other; auto.
  - intros fp eject prev rnd. unfold replacingFingerprintInsertion.
    destruct (find _ _) as [j|]; [|destruct eject]; simpl;
      try reflexivity; apply contains_insert_other; auto.
  - intros fp. unfold deleteFingerprint.
    destruct (find _ _) as [j|]; simpl;
      try reflexivity; apply contains_insert_other; auto.
Qed.

(** X12.  Deleting one fingerprint loses no other: on a bucket that stores
    no bit outside the mask, [deleteFingerprint(fp, i)] leaves the lookup
    of every fingerprint other than [fp] and 0 in bucket [i] as it was. *)
Theorem delete_keeps_others t fp fp' i :
  supported = true -> allocated t -> (i < table_size t)%nat ->
  clean t i -> fp' <> fp -> fp' <> 0 ->
  containsFingerprint (snd (deleteFingerprint t fp i)) i fp'
  = containsFingerprint t i fp'.
Proof.
  intros Hs Ha Hi Hc Hne Hnz. unfold deleteFingerprint.
  destruct (find _ _) as [j0|] eqn:Hfind; simpl; [|reflexivity].
  apply find_seq_some in Hfind. destruct Hfind as (Hj0 & Hz & _).
  apply Z.eqb_eq in Hz.
  assert (Hraw : read B j0 (data t i) = fp)
    by (unfold getFingerprint in Hz; rewrite Hc in Hz by assumption; exact Hz).
  apply Bool.eq_iff_eq_true. rewrite !contains_iff_read by assumption.
  split; intros (j & Hj & Hr); exists j; split; auto.
  - destruct (Nat.eq_dec j j0) as [-> | Hj'].
    + rewrite read_insert_same, stored_zero in Hr by auto. congruence.
    + rewrite read_insert_other in Hr by auto. exact Hr.
  - destruct (Nat.eq_dec j j0) as [-> | Hj'].
    + congruence.
    + rewrite read_insert_other by auto. exact Hr.
Qed.


(** X20.  Whatever the table holds and whatever the indices,
    [getFingerprint] returns a value from 0 to below 2^[bits_per_fp], and
    for a mask that is not negative a value of at most [fp_mask]. *)
Theorem getFingerprint_range t i j :
  0 <= getFingerprint t i j < 2 ^ Z.of_nat B
  /\ (0 <= fp_mask t -> getFingerprint t i j <= fp_mask t).
Proof.
  unfold getFingerprint, read.
  pose proof (field_range B (le_combine (data t i)) j) as Hf.
  split; [split|].
  - apply Z.land_nonneg. left. lia.
  - apply Z.le_lt_trans with (field B (le_combine (data t i)) j);
      [apply land_le_l|]; lia.
  - intros Hm. rewrite Z.land_comm. apply land_le_l. exact Hm.
Qed.

(** X21.  The parameters the constructor accepts pack a bucket into one
    machine word without padding: [entries_per_bucket] fields of
    [bits_per_fp] bits fill [bytes_per_bucket] bytes exactly, at most 8,
    so the 64-bit load of [containsFingerprint] holds every slot of the
    bucket it is aimed at. *)
Theorem accepted_shapes_fit_word size mask behind t :
  new_CuckooTable size mask behind = Some t ->
  (0 < E)%nat /\ (0 < B <= 32)%nat
  /\ (E * B = 8 * bpb)%nat /\ (bpb <= 8)%nat
  /\ forall i j, (j < E)%nat ->
       field B (load_u64 t i) j = read B j (data t i).
Proof.
  intros Hnew.
  assert (Hs : supported = true)
    by (unfold new_CuckooTable in Hnew; destruct supported;
        [reflexivity | discriminate]).
  destruct (shape_facts P Hs) as (HE & HB & Heq & Hle).
  repeat split; auto.
  - destruct (Nat.le_gt_cases B 32) as [|Hgt]; [assumption|].
    exfalso.
    assert (H33 : (1 * 33 <= E * B)%nat) by (apply Nat.mul_le_mono; lia).
    assert (H2 : (E <= 1)%nat).
    { destruct (Nat.le_gt_cases E 1) as [|H2]; [assumption|].
      assert ((2 * 33 <= E * B)%nat) by (apply Nat.mul_le_mono; lia). lia. }
    assert (E = 1%nat) by lia.
    revert Hs. unfold supported. replace E with 1%nat. discriminate.
  - intros i j Hj. apply load_u64_field; auto.
Qed.

(** X22.  An eviction is undone by writing the evicted fingerprint back:
    on a full bucket that stores no bit outside the mask, after
    [replacingFingerprintInsertion] with [eject = true],
    [insertFingerprint] of the returned [prev_fp] at the slot
    [rand() % entries_per_bucket] gives back the table, byte for byte. *)
Theorem eviction_undo t i fp prev rnd :
  supported = true -> allocated t -> (i < table_size t)%nat ->
  clean t i -> full t i ->
  let r := replacingFingerprintInsertion t i fp true prev rnd in
  insertFingerprint (snd r) i (rnd mod E) (snd (fst r)) = t.
Proof.
  intros Hs Ha Hi Hc Hf r. subst r.
  destruct (shape_facts P Hs) as (HE & _).
  assert (Hn : (rnd mod E < E)%nat) by (apply Nat.mod_upper_bound; lia).
  unfold replacingFingerprintInsertion.
  rewrite full_find_none by assumption. cbn [fst snd].
  rewrite insert_insert by auto.
  unfold insertFingerprint.
  rewrite write_same_field; [apply set_data_same|].
  unfold getFingerprint. rewrite Hc by assumption.
  rewrite <- Z.land_assoc.
  change (Z.land (fp_mask t) (Z.ones (Z.of_nat B)))
    with (Z.land (fp_mask t) (Z.ones (Z.of_nat B))).
  rewrite (Z.land_comm (fp_mask t)), Z.land_assoc.
  rewrite (Z.land_ones (read B (rnd mod E) (data t i))) by lia.
  rewrite Z.mod_small by (apply field_range).
  apply Hc. exact Hn.
Qed.

End TableExtras.

(** ** Further properties on the scenario *)

Lemma insertion_first_empty_witness :
  replacingFingerprintInsertion (P := params_4_8) scenario_three 3 0x2A true 7 5
  = (true, 7, scenario_full)
  /\ getFingerprint (P := params_4_8) scenario_full 3 0 = 0x2A.
Proof.
  assert (H0 : (0 < 4)%nat) by lia.
  assert (Hfirst : forall j, (j < 0)%nat ->
            getFingerprint (P := params_4_8) scenario_three 3 j <> 0)
    by (intros j Hj; exfalso; lia).
  destruct (insertion_first_empty (P := params_4_8) scenario_three 3 0x2A true
              7 5 0 eq_refl scenario_three_allocated scenario_bucket_in_range
              H0 eq_refl Hfirst) as (Hr & Hslot & _).
  split; [exact Hr | exact Hslot].
Defined.

Lemma new_table_empty_witness :
  getTableSize scenario_empty = 8%nat
  /\ getNumOfFreeEntries (P := params_4_8) scenario_empty
     = maxNoOfElements (P := params_4_8) scenario_empty
  /\ containsFingerprint (P := params_4_8) scenario_empty 3 0x2A = false.
Proof.
  destruct (new_table_empty (P := params_4_8) 8 0xFF [] scenario_empty eq_refl)
    as (Hsize & _ & _ & _ & _ & Hfree & Hcontains).
  split; [exact Hsize|]. split; [exact Hfree|].
  apply Hcontains; [lia | discriminate].
Defined.

Lemma insertion_takes_one_free_witness :
  let r := replacingFingerprintInsertion (P := params_4_8)
             scenario_three 3 0x2A false 7 0 in
  S (getNumOfFreeEntries (P := params_4_8) (snd r))
  = getNumOfFreeEntries (P := params_4_8) scenario_three
  /\ storedFingerprints (P := params_4_8) (snd r)
     = S (storedFingerprints (P := params_4_8) scenario_three).
Proof.
  apply (insertion_takes_one_free (P := params_4_8) scenario_three 3 0x2A
           false 7 0 eq_refl scenario_three_allocated scenario_bucket_in_range).
  - vm_compute. discriminate.
  - reflexivity.
Defined.

Lemma delete_frees_one_witness :
  let r := deleteFingerprint (P := params_4_8) scenario_full 0x2C 3 in
  S (fingerprintCount (P := params_4_8) (snd r) 3)
  = fingerprintCount (P := params_4_8) scenario_full 3
  /\ getNumOfFreeEntries (P := params_4_8) (snd r)
     = S (getNumOfFreeEntries (P := params_4_8) scenario_full).
Proof.
  destruct (delete_frees_one (P := params_4_8) scenario_full 0x2C 3
              eq_refl scenario_full_allocated scenario_bucket_in_range)
    as (Hcount & _ & Hfree).
  - discriminate.
  - reflexivity.
  - split; [exact Hcount | exact Hfree].
Defined.

Lemma insert_overwrites_witness :
  insertFingerprint (P := params_4_8)
    (insertFingerprint (P := params_4_8) scenario_full 3 1 0x77) 3 1 0x2B
  = scenario_full.
Proof.
  rewrite (insert_overwrites (P := params_4_8) scenario_full 3 1 0x77 0x2B
             scenario_full_allocated scenario_bucket_in_range).
  reflexivity.
Defined.

Lemma scenario_three_clean : clean (P := params_4_8) scenario_three 3.
Proof. unfold clean. each_slot. Defined.

Lemma insert_delete_round_trip_witness :
  let r := replacingFingerprintInsertion (P := params_4_8)
             scenario_three 3 0x2A false 7 0 in
  let d := deleteFingerprint (P := params_4_8) (snd r) 0x2A 3 in
  fst d = true /\ snd d = scenario_three.
Proof.
  destruct (insert_delete_round_trip (P := params_4_8) scenario_three 3 0x2A
              false 7 0 eq_refl scenario_three_allocated
              scenario_bucket_in_range scenario_three_clean eq_refl)
    as (Hret & _ & Hback).
  - discriminate.
  - reflexivity.
  - split; [exact Hret|]. apply Hback. each_slot.
Defined.

Lemma scenario_full_clean_other : clean (P := params_4_8) scenario_full 5.
Proof. unfold clean. each_slot. Defined.

Lemma contains_either_agrees_with_slots_witness :
  containsFingerprint2 (P := params_4_8) scenario_full 5 3 0x2C = true
  <-> exists j, (j < 4)%nat
        /\ (getFingerprint (P := params_4_8) scenario_full 5 j = 0x2C
            \/ getFingerprint (P := params_4_8) scenario_full 3 j = 0x2C).
Proof.
  apply (contains_either_agrees_with_slots (P := params_4_8) scenario_full
           5 3 0x2C eq_refl scenario_full_clean_other scenario_full_clean).
Defined.

Lemma lookup_frame_witness :
  containsFingerprint (P := params_4_8)
    (insertFingerprint (P := params_4_8) scenario_full 3 0 0x99) 2 0x99
  = containsFingerprint (P := params_4_8) scenario_full 2 0x99.
Proof.
  destruct (lookup_frame (P := params_4_8) scenario_full 3 2 0x99
              eq_refl scenario_full_allocated scenario_bucket_in_range)
    as (Hins & _).
  - discriminate.
  - apply Hins.
Defined.

Lemma delete_keeps_others_witness :
  containsFingerprint (P := params_4_8)
    (snd (deleteFingerprint (P := params_4_8) scenario_full 0x2A 3)) 3 0x2C
  = containsFingerprint (P := params_4_8) scenario_full 3 0x2C.
Proof.
  apply (delete_keeps_others (P := params_4_8) scenario_full 0x2A 0x2C 3
           eq_refl scenario_full_allocated scenario_bucket_in_range
           scenario_full_clean); discriminate.
Defined.


(* ===================================================================== *)
(** * Further properties of the hash primitives                           *)
(* ===================================================================== *)

Module DoubleBounds.
Import HashFunction DoubleFacts.

Section Rounding.
Variable K : Z.
Hypothesis K_nonneg : 0 <= K.

(** Rounding a positive value of at least 53 digits, within the range of
    normal numbers, gives a finite number that exceeds the value cut to 53
    digits by at most one unit of its last digit. *)
Lemma round_aux_le p e l :
  let d := Z.pos (digits2_pos p) in
  53 <= d -> -1074 <= d + e - 53 -> -K <= e -> e + (d - 53) + 1 <= 971 ->
  exists m' e',
    binary_round_aux 53 1024 false (Z.pos p) e l = S754_finite false m' e'
    /\ scaled K (Z.pos m') e'
       <= scaled K (Z.pos p / 2 ^ (d - 53) + 1) (e + (d - 53))
    /\ e + (d - 53) <= e' <= e + (d - 53) + 1
    /\ 2 ^ 52 <= Z.pos m' < 2 ^ 53.
Proof.
  intros d Hd He HK Hmax. unfold binary_round_aux.
  destruct (shr_fexp_normal p e l Hd He) as [Hm1 He1]. fold d in Hm1, He1.
  destruct (shr_fexp 53 1024 (Z.pos p) e l) as [mrs1 e1].
  cbn [fst snd] in Hm1, He1.
  rewrite <- Hm1, <- He1.
  pose proof (digits_bounds p) as [Hlo Hhi]. fold d in Hlo, Hhi.
  assert (Hk : 0 < 2 ^ (d - 53)) by (apply Z.pow_pos_nonneg; lia).
  assert (Hm1lo : 2 ^ 52 <= shr_m mrs1).
  { rewrite Hm1. apply Z.div_le_lower_bound; [exact Hk|].
    rewrite <- Z.pow_add_r by lia.
    replace (d - 53 + 52) with (d - 1) by lia. exact Hlo. }
  assert (Hm1hi : shr_m mrs1 < 2 ^ 53).
  { rewrite Hm1. apply Z.div_lt_upper_bound; [exact Hk|].
    rewrite <- Z.pow_add_r by lia.
    replace (d - 53 + 53) with d by lia. exact Hhi. }
  pose proof (round_nearest_even_ge (shr_m mrs1) (loc_of_shr_record mrs1)) as Hr.
  destruct (round_nearest_even (shr_m mrs1) (loc_of_shr_record mrs1))
    as [|p2|p2]; try lia.
  pose proof (digits_bounds p2) as [Hlo2 Hhi2].
  assert (Hd2 : 53 <= Z.pos (digits2_pos p2)) by (apply digits_ge_53; lia).
  assert (Hd2' : Z.pos (digits2_pos p2) <= 54).
  { destruct (Z.le_gt_cases (Z.pos (digits2_pos p2)) 54) as [|Hgt]; [assumption|].
    assert (2 ^ 54 <= 2 ^ (Z.pos (digits2_pos p2) - 1))
      by (apply Z.pow_le_mono_r; lia).
    lia. }
  destruct (shr_fexp_normal p2 e1 loc_Exact Hd2) as [Hm3 He3]; [lia|].
  destruct (shr_fexp 53 1024 (Z.pos p2) e1 loc_Exact) as [mrs3 e3].
  cbn [fst snd] in Hm3, He3.
  assert (Hs : 0 < 2 ^ (e1 + K)) by (apply Z.pow_pos_nonneg; lia).
  assert (Hkey : shr_m mrs3 * 2 ^ (e3 + K) <= (shr_m mrs1 + 1) * 2 ^ (e1 + K)
                 /\ 2 ^ 52 <= shr_m mrs3 < 2 ^ 53 /\ e1 <= e3 <= e1 + 1).
  { destruct (Z.eq_dec (Z.pos (digits2_pos p2)) 53) as [E53 | N53].
    - rewrite E53 in Hm3, He3, Hhi2. simpl in Hm3. rewrite Z.div_1_r in Hm3.
      rewrite Hm3, He3. replace (e1 + (53 - 53) + K) with (e1 + K) by lia.
      split; [apply Z.mul_le_mono_nonneg_r; lia | lia].
    - assert (E54 : Z.pos (digits2_pos p2) = 54) by lia.
      rewrite E54 in Hm3, He3, Hlo2. simpl in Hlo2.
      assert (Ep2 : Z.pos p2 = 2 ^ 53) by (simpl; lia).
      rewrite Ep2 in Hm3. rewrite Hm3, He3.
      replace (e1 + (54 - 53) + K) with (1 + (e1 + K)) by lia.
      rewrite (Z.pow_add_r 2 1 (e1 + K)) by lia.
      change (2 ^ 53 / 2 ^ (54 - 53)) with (2 ^ 52).
      change (2 ^ 1) with 2.
      split; [|lia].
      replace (2 ^ 52 * (2 * 2 ^ (e1 + K))) with (2 ^ 53 * 2 ^ (e1 + K))
        by (change (2 ^ 53) with (2 * 2 ^ 52); ring).
      apply Z.mul_le_mono_nonneg_r; lia. }
  destruct Hkey as (Hkey & Hm3lo & He13).
  destruct (shr_m mrs3) as [|p3|p3]; try (simpl in Hm3lo; lia).
  replace (e3 <=? 1024 - 53) with true by (symmetry; apply Z.leb_le; lia).
  exists p3, e3. unfold scaled. split; [reflexivity|]. repeat split; lia.
Qed.
End Rounding.

(** The integer part of a value that is below the integer [y]. *)
Lemma shiftl_lt K m e y :
  0 <= K -> -K <= e -> scaled K m e < y * 2 ^ K -> Z.shiftl m e < y.
Proof.
  intros HK He Hlt. unfold scaled in Hlt.
  assert (HK' : 0 < 2 ^ K) by (apply Z.pow_pos_nonneg; lia).
  destruct (Z.le_gt_cases 0 e) as [Hpos | Hneg].
  - rewrite Z.shiftl_mul_pow2 by lia.
    rewrite Z.pow_add_r, Z.mul_assoc in Hlt by lia.
    apply Z.mul_lt_mono_pos_r in Hlt; assumption.
  - rewrite Z.shiftl_div_pow2 by lia.
    assert (HA : 0 < 2 ^ (- e)) by (apply Z.pow_pos_nonneg; lia).
    assert (HB : 0 < 2 ^ (e + K)) by (apply Z.pow_pos_nonneg; lia).
    apply Z.div_lt_upper_bound; [exact HA|].
    apply Z.mul_lt_mono_pos_r with (p := 2 ^ (e + K)); [exact HB|].
    replace (2 ^ (- e) * y * 2 ^ (e + K)) with (y * (2 ^ (- e) * 2 ^ (e + K)))
      by ring.
    rewrite <- Z.pow_add_r by lia.
    replace (- e + (e + K)) with K by lia. exact Hlt.
Qed.

End DoubleBounds.

Module HashExtras.
Import HashFunction DoubleFacts HashFacts.

Lemma digits_of_bounds p n :
  2 ^ (n - 1) <= Z.pos p < 2 ^ n -> Z.pos (digits2_pos p) = n.
Proof.
  intros [Hlo Hhi]. pose proof (digits_bounds p) as [Hlo' Hhi'].
  set (d := Z.pos (digits2_pos p)) in *.
  assert (Hd : 0 < d) by (unfold d; lia).
  destruct (Z.lt_trichotomy d n) as [Hlt | [Heq | Hgt]]; [|assumption|].
  - assert (2 ^ d <= 2 ^ (n - 1)) by (apply Z.pow_le_mono_r; lia). lia.
  - destruct (Z.le_gt_cases n 0) as [Hn | Hn].
    + rewrite (Z.pow_neg_r 2 (n - 1)) in Hlo by lia.
      assert (2 ^ n <= 2 ^ 0) by (apply Z.pow_le_mono_r; lia).
      change (2 ^ 0) with 1 in *. lia.
    + assert (2 ^ n <= 2 ^ (d - 1)) by (apply Z.pow_le_mono_r; lia). lia.
Qed.

(** [double(1LL << 31) / double(d)] is finite and exceeds 2^31 by at most
    2^-21 for [d] from 1 to 2^31. *)
Lemma ratio_upper d :
  1 <= d <= 2 ^ 31 ->
  exists mR eR,
    SFdiv 53 1024 (double_of_Z (2 ^ 31)) (double_of_Z d)
    = S754_finite false mR eR
    /\ 2 ^ 52 <= Z.pos mR < 2 ^ 53 /\ -75 <= eR <= -20
    /\ scaled 1000 (Z.pos mR) eR * 2 ^ 22 <= (2 ^ 53 + 2) * 2 ^ 1000.
Proof.
  intros Hd.
  destruct (double_of_Z_exact d) as (mD & eD & -> & HdD & HeD & HmD & Hlog);
    [lia|].
  assert (HeD' : eD <= -21).
  { assert (Z.log2 d <= Z.log2 (2 ^ 31)) by (apply Z.log2_le_mono; lia).
    rewrite Z.log2_pow2 in H by lia. lia. }
  change (double_of_Z (2 ^ 31)) with (S754_finite false 4503599627370496 (-21)).
  unfold SFdiv, SFdiv_core_binary, fexp, emin. cbv zeta.
  cbn [Zdigits2 xorb]. rewrite HdD.
  change (Z.pos (digits2_pos 4503599627370496)) with 53.
  replace (Z.min (Z.max (53 + -21 - (53 + eD) - 53) (3 - 1024 - 53)) (-21 - eD))
    with (-74 - eD) by lia.
  replace (-21 - eD - (-74 - eD)) with 53 by lia.
  change (Z.shiftl 4503599627370496 53) with (2 ^ 105).
  pose proof (Z_div_mod (2 ^ 105) (Z.pos mD) eq_refl) as Hdiv.
  destruct (Z.div_eucl (2 ^ 105) (Z.pos mD)) as [q r].
  destruct Hdiv as [Hq Hr].
  pose proof (digits_bounds mD) as [HloD HhiD]. rewrite HdD in HloD, HhiD.
  change (2 ^ (53 - 1)) with (2 ^ 52) in HloD.
  assert (Hq52 : 2 ^ 52 <= q).
  { destruct (Z.le_gt_cases (2 ^ 52) q) as [|Hlt]; [assumption|].
    exfalso.
    assert (H1 : (q + 1) * Z.pos mD <= 2 ^ 52 * Z.pos mD)
      by (apply Z.mul_le_mono_nonneg_r; lia).
    assert (H2 : 2 ^ 52 * Z.pos mD < 2 ^ 52 * 2 ^ 53)
      by (apply Z.mul_lt_mono_pos_l; lia).
    change (2 ^ 52 * 2 ^ 53) with (2 ^ 105) in H2. lia. }
  assert (Hq53 : q <= 2 ^ 53).
  { destruct (Z.le_gt_cases q (2 ^ 53)) as [|Hgt]; [assumption|].
    exfalso.
    assert (H1 : (2 ^ 53 + 1) * 2 ^ 52 <= q * Z.pos mD)
      by (apply Z.mul_le_mono_nonneg; lia).
    change ((2 ^ 53 + 1) * 2 ^ 52) with (2 ^ 105 + 2 ^ 52) in H1. lia. }
  destruct q as [|pq|pq]; try (exfalso; lia).
  pose proof (digits_bounds pq) as [Hlq Hhq].
  pose proof (digits_ge_53 pq Hq52) as Hdq.
  pose proof (DoubleBounds.round_aux_le 1000 ltac:(lia) pq (-74 - eD)
                (new_location (Z.pos mD) r)) as Hrnd.
  cbv zeta in Hrnd.
  remember (Z.pos (digits2_pos pq)) as dq eqn:Edq.
  assert (Hdq' : dq <= 54).
  { destruct (Z.le_gt_cases dq 54) as [|Hgt]; [assumption|].
    assert (2 ^ 54 <= 2 ^ (dq - 1)) by (apply Z.pow_le_mono_r; lia). lia. }
  destruct Hrnd as (mR & eR & HR & Hle & HeR & HmR); try lia.
  rewrite HR.
  exists mR, eR. split; [reflexivity|]. split; [exact HmR|]. split; [lia|].
  unfold scaled in *.
  assert (Hcut : (Z.pos pq / 2 ^ (dq - 53) + 1) * 2 ^ (dq - 53) <= 2 ^ 53 + 2).
  { destruct (Z.eq_dec dq 53) as [E53 | Hn].
    - rewrite E53 in *. change (2 ^ (53 - 53)) with 1. rewrite Z.div_1_r. lia.
    - assert (E54 : dq = 54) by lia. rewrite E54.
      change (2 ^ (54 - 53)) with 2.
      pose proof (Z.mul_div_le (Z.pos pq) 2 eq_refl). lia. }
  assert (Hs : 0 < 2 ^ (-74 - eD + 1000)) by (apply Z.pow_pos_nonneg; lia).
  assert (Hstep : (Z.pos pq / 2 ^ (dq - 53) + 1)
                  * 2 ^ (-74 - eD + (dq - 53) + 1000)
                  <= (2 ^ 53 + 2) * 2 ^ (-74 - eD + 1000)).
  { replace (-74 - eD + (dq - 53) + 1000)
      with ((dq - 53) + (-74 - eD + 1000)) by lia.
    rewrite Z.pow_add_r, Z.mul_assoc by lia.
    apply Z.mul_le_mono_nonneg_r; lia. }
  assert (Hexp : 2 ^ (-74 - eD + 1000) * 2 ^ 22 <= 2 ^ 1000).
  { rewrite <- Z.pow_add_r by lia. apply Z.pow_le_mono_r; lia. }
  apply Z.le_trans with ((2 ^ 53 + 2) * 2 ^ (-74 - eD + 1000) * 2 ^ 22).
  - apply Z.mul_le_mono_nonneg_r; lia.
  - rewrite <- Z.mul_assoc. apply Z.mul_le_mono_nonneg_l; lia.
Qed.

(** The first iteration of [hash] is always defined: its candidate is a
    [uint32_t], from 1 to 2^31. *)
Lemma first_candidate key_val :
  0 <= key_val < 2 ^ 64 ->
  exists j, next_j 0 key_val = Some j /\ 1 <= j <= 2 ^ 31.
Proof.
  intros Hk.
  assert (Hd : 1 <= Z.shiftr key_val 33 + 1 <= 2 ^ 31).
  { rewrite Z.shiftr_div_pow2 by lia.
    assert (0 <= key_val / 2 ^ 33) by (apply Z.div_pos; lia).
    assert (key_val / 2 ^ 33 < 2 ^ 31)
      by (apply Z.div_lt_upper_bound;
          [lia | change (2 ^ 33 * 2 ^ 31) with (2 ^ 64); lia]).
    lia. }
  assert (Hsome : exists j, next_j 0 key_val = Some j /\ j <= 2 ^ 31).
  { unfold next_j. rewrite (Z.mod_small (0 + 1)) by lia.
    unfold double_mul, double_div, prec, emax.
    destruct (ratio_upper _ Hd) as (mR & eR & -> & HmR & HeR & HR).
    change (double_of_Z (0 + 1))
      with (S754_finite false 4503599627370496 (-52)).
    unfold SFmul. cbn [xorb].
    assert (Hdig : Z.pos (digits2_pos (4503599627370496 * mR)) = 105).
    { apply digits_of_bounds. rewrite Pos2Z.inj_mul.
      change (Z.pos 4503599627370496) with (2 ^ 52).
      change (2 ^ (105 - 1)) with (2 ^ 52 * 2 ^ 52).
      change (2 ^ 105) with (2 ^ 52 * 2 ^ 53).
      split; [apply Z.mul_le_mono_nonneg_l | apply Z.mul_lt_mono_pos_l]; lia. }
    destruct (DoubleBounds.round_aux_le 1000 ltac:(lia) (4503599627370496 * mR) (-52 + eR)
                loc_Exact)
      as (mP & eP & -> & Hle & HeP & HmP); rewrite ?Hdig; try lia.
    rewrite Hdig in Hle, HeP. rewrite Pos2Z.inj_mul in Hle.
    change (Z.pos 4503599627370496) with (2 ^ 52) in Hle.
    change (2 ^ (105 - 53)) with (2 ^ 52) in Hle.
    rewrite (Z.mul_comm (2 ^ 52)), Z.div_mul in Hle by lia.
    replace (-52 + eR + (105 - 53)) with eR in Hle, HeP by lia.
    unfold scaled in *.
    unfold uint32_of_double, truncate. cbn [cond_Zopp].
    assert (Hs : 0 < 2 ^ (eR + 1000)) by (apply Z.pow_pos_nonneg; lia).
    assert (Hup : Z.shiftl (Z.pos mP) eP < 2 ^ 31 + 1).
    { apply (DoubleBounds.shiftl_lt 1000); try lia. unfold scaled.
      (* 2^74 * P <= 2^22 * (2^52 + 1) * R <= (2^52 + 1) * (2^53 + 2) * 2^K *)
      assert (H1 : Z.pos mP * 2 ^ (eP + 1000) * 2 ^ 52
                   <= Z.pos mR * 2 ^ (eR + 1000) * (2 ^ 52 + 1)).
      { apply Z.le_trans with ((Z.pos mR + 1) * 2 ^ (eR + 1000) * 2 ^ 52).
        - apply Z.mul_le_mono_nonneg_r; lia.
        - replace ((Z.pos mR + 1) * 2 ^ (eR + 1000) * 2 ^ 52)
            with (2 ^ (eR + 1000) * ((Z.pos mR + 1) * 2 ^ 52)) by ring.
          replace (Z.pos mR * 2 ^ (eR + 1000) * (2 ^ 52 + 1))
            with (2 ^ (eR + 1000) * (Z.pos mR * (2 ^ 52 + 1))) by ring.
          apply Z.mul_le_mono_nonneg_l; lia. }
      assert (H2 : Z.pos mP * 2 ^ (eP + 1000) * 2 ^ 52 * 2 ^ 22
                   <= (2 ^ 53 + 2) * 2 ^ 1000 * (2 ^ 52 + 1)).
      { apply Z.le_trans
          with (Z.pos mR * 2 ^ (eR + 1000) * (2 ^ 52 + 1) * 2 ^ 22).
        - apply Z.mul_le_mono_nonneg_r; lia.
        - replace (Z.pos mR * 2 ^ (eR + 1000) * (2 ^ 52 + 1) * 2 ^ 22)
            with (Z.pos mR * 2 ^ (eR + 1000) * 2 ^ 22 * (2 ^ 52 + 1)) by ring.
          apply Z.mul_le_mono_nonneg_r; lia. }
      assert (HK : 0 < 2 ^ 1000) by (apply Z.pow_pos_nonneg; lia).
      remember (2 ^ 1000) as big eqn:Ebig.
      remember (Z.pos mP * 2 ^ (eP + 1000)) as vP eqn:EvP.
      clear - H2 HK. lia. }
    assert (Hlow : 0 <= Z.shiftl (Z.pos mP) eP)
      by (apply Z.shiftl_nonneg; lia).
    replace ((0 <=? Z.shiftl (Z.pos mP) eP)
             && (Z.shiftl (Z.pos mP) eP <? 2 ^ 32)) with true.
    - exists (Z.shiftl (Z.pos mP) eP). split; [reflexivity | lia].
    - symmetry. apply andb_true_iff. split;
        [apply Z.leb_le | apply Z.ltb_lt]; lia. }
  destruct Hsome as (j & Hj & Hup). exists j. split; [exact Hj|].
  apply next_j_increases in Hj; lia.
Qed.

(** Iterations granted beyond those a run needs do not change it. *)
Lemma hash_loop_more_fuel fuel num_buckets : forall fuel' b j key_val,
  hash_loop fuel num_buckets b j key_val <> OutOfFuel ->
  (fuel <= fuel')%nat ->
  hash_loop fuel' num_buckets b j key_val
  = hash_loop fuel num_buckets b j key_val.
Proof.
  induction fuel as [|fuel IH]; intros fuel' b j key_val Hrun Hle.
  - simpl in *. destruct (j <? num_buckets) eqn:Hlt; [congruence|].
    destruct fuel'; simpl; rewrite Hlt; reflexivity.
  - destruct fuel' as [|fuel']; [lia|]. simpl in *.
    destruct (j <? num_buckets); [|reflexivity].
    destruct (next_j j _) as [j'|]; [|reflexivity].
    apply IH; [exact Hrun | lia].
Qed.

(** Once the loop is entered, what it returns is at least the candidate it
    was entered with. *)
Lemma hash_loop_ge fuel num_buckets : forall b j key_val r,
  num_buckets < 2 ^ 32 -> 0 <= j < num_buckets ->
  hash_loop fuel num_buckets b j key_val = Returns r -> j <= r.
Proof.
  induction fuel as [|fuel IH]; intros b j key_val r Hn Hj; simpl;
    (replace (j <? num_buckets) with true by (symmetry; apply Z.ltb_lt; lia)).
  - discriminate.
  - destruct (next_j j _) as [j'|] eqn:Hnext; [|discriminate].
    apply next_j_increases in Hnext; [| lia | apply Z.mod_pos_bound; lia].
    destruct (Z.lt_ge_cases j' num_buckets) as [Hlt | Hge].
    + intros Hrun. apply IH in Hrun; lia.
    + destruct fuel; simpl;
        (replace (j' <? num_buckets) with false
           by (symmetry; apply Z.ltb_ge; lia));
        intros [= <-]; lia.
Qed.

(** A run that returns for [n'] buckets returns for every smaller count
    [n] too, with the same iterations: the same index when that is below
    [n], otherwise an index that the larger run moved to [n] or beyond. *)
Lemma hash_loop_shrink fuel n n' : forall b j key_val r',
  n <= n' < 2 ^ 32 -> 0 <= j ->
  hash_loop fuel n' b j key_val = Returns r' ->
  exists r, hash_loop fuel n b j key_val = Returns r
            /\ (r' = r \/ n <= r').
Proof.
  induction fuel as [|fuel IH]; intros b j key_val r' Hn Hj; simpl;
    destruct (j <? n') eqn:Hlt'; try discriminate.
  - intros [= <-]. apply Z.ltb_ge in Hlt'.
    replace (j <? n) with false by (symmetry; apply Z.ltb_ge; lia).
    exists b. auto.
  - apply Z.ltb_lt in Hlt'.
    destruct (next_j j _) as [j'|] eqn:Hnext; [|discriminate].
    intros Hrun'. destruct (j <? n) eqn:Hlt.
    + apply next_j_range in Hnext. apply IH; [lia | lia |]. exact Hrun'.
    + apply Z.ltb_ge in Hlt. exists b. split; [reflexivity|]. right.
      assert (Hge : j <= r').
      { apply (hash_loop_ge (S fuel) n' b j key_val r'); [lia | lia |].
        simpl. replace (j <? n') with true by (symmetry; apply Z.ltb_lt; lia).
        rewrite Hnext. exact Hrun'. }
      lia.
  - intros [= <-]. apply Z.ltb_ge in Hlt'.
    replace (j <? n) with false by (symmetry; apply Z.ltb_ge; lia).
    exists b. auto.
Qed.

(** [MURMUR_CONST] is odd: it has an inverse modulo 2^32. *)
Lemma murmur_invertible fp :
  ((fp * MURMUR_CONST) mod 2 ^ 32 * 3852147133) mod 2 ^ 32 = fp mod 2 ^ 32.
Proof.
  rewrite Z.mul_mod_idemp_l by lia.
  rewrite <- Z.mul_assoc.
  rewrite Z.mul_mod by lia.
  change ((MURMUR_CONST * 3852147133) mod 2 ^ 32) with 1.
  rewrite Z.mul_1_r. apply Z.mod_mod. lia.
Qed.

Lemma scramble_inj fp fp' :
  (fp * MURMUR_CONST) mod 2 ^ 32 = (fp' * MURMUR_CONST) mod 2 ^ 32 ->
  fp mod 2 ^ 32 = fp' mod 2 ^ 32.
Proof.
  intros H. rewrite <- (murmur_invertible fp), <- (murmur_invertible fp'), H.
  reflexivity.
Qed.

(** The scrambled fingerprint, recovered from an index and its alternate. *)
Lemma complement_xor index fp :
  Z.lxor (fingerprintComplement index fp) (index mod 2 ^ 32)
  = (fp * MURMUR_CONST) mod 2 ^ 32.
Proof.
  unfold fingerprintComplement.
  remember (fp * MURMUR_CONST) as m eqn:Em; clear Em.
  Z.bitblast.
Qed.

Section Hash.
Variable std_hash : Z -> Z.

(** X14.  With fewer than 2^32 buckets, [num_buckets] iterations are
    enough for every key: any number of iterations from [num_buckets] on
    gives the same run, which returns an index in [0, num_buckets) or
    meets a conversion of an out-of-range [double] to [uint32_t]. *)
Theorem hash_run_below_u32 fuel key num_buckets :
  0 < num_buckets < 2 ^ 32 -> (Z.to_nat num_buckets <= fuel)%nat ->
  hash std_hash fuel key num_buckets
  = hash std_hash (Z.to_nat num_buckets) key num_buckets
  /\ match hash std_hash fuel key num_buckets with
     | Returns r => 0 <= r < num_buckets
     | Undefined => True
     | OutOfFuel => False
     end.
Proof.
  intros Hn Hfuel.
  assert (Heq : hash std_hash fuel key num_buckets
                = hash std_hash (Z.to_nat num_buckets) key num_buckets).
  { unfold hash. apply hash_loop_more_fuel; [|exact Hfuel].
    apply hash_loop_ends; lia. }
  split; [exact Heq|]. rewrite Heq.
  destruct (hash std_hash (Z.to_nat num_buckets) key num_buckets)
    as [r| |] eqn:Hrun.
  - unfold hash in Hrun. apply hash_loop_range in Hrun; lia.
  - exact I.
  - unfold hash in Hrun. apply hash_loop_ends in Hrun; lia.
Qed.

(** X16.  [hash] is consistent when the table grows, wherever it
    returns.  For bucket counts [n <= n'] below 2^32 and at least as many
    iterations, the run for [n'] buckets meets a conversion of an
    out-of-range [double] to [uint32_t] or returns an index [r']; when it
    returns, the run for [n] buckets returns too, an index [r] below [n],
    and [r'] is [r] again or one of the new buckets [n, n'). *)
Theorem hash_consistent fuel fuel' key n n' :
  0 < n -> n <= n' < 2 ^ 32 ->
  (Z.to_nat n <= fuel)%nat -> (Z.to_nat n' <= fuel')%nat ->
  match hash std_hash fuel' key n' with
  | Returns r' =>
      exists r, hash std_hash fuel key n = Returns r
                /\ 0 <= r < n /\ (r' = r \/ n <= r' < n')
  | Undefined => True
  | OutOfFuel => False
  end.
Proof.
  intros H0 Hn Hfuel Hfuel'. unfold hash.
  destruct (hash_loop fuel' n' 1 0 (std_hash key)) as [r'| |] eqn:Hrun'.
  - assert (Hr' : 0 <= r' < n') by (apply hash_loop_range in Hrun'; lia).
    destruct (hash_loop_shrink _ _ _ _ _ _ _ Hn (Z.le_refl 0) Hrun')
      as (r & Hrun & Hrel).
    exists r.
    assert (Hsame : hash_loop fuel n 1 0 (std_hash key) = Returns r).
    { rewrite <- Hrun.
      transitivity (hash_loop (Z.to_nat n) n 1 0 (std_hash key)).
      - apply hash_loop_more_fuel; [|exact Hfuel].
        apply hash_loop_ends; lia.
      - symmetry. apply hash_loop_more_fuel; [|lia].
        apply hash_loop_ends; lia. }
    split; [exact Hsame|]. split.
    + apply hash_loop_range in Hsame; lia.
    + destruct Hrel; [left | right]; lia.
  - exact I.
  - apply hash_loop_ends in Hrun'; lia.
Qed.

(** X17.  The first iteration never meets the undefined conversion, so
    with one bucket [hash] returns 0 for every key after one iteration;
    with no bucket (outside the contract) the loop is not entered and the
    initial value 1 of [b] is returned, an index no table has. *)
Theorem hash_edge_counts fuel key :
  hash std_hash fuel key 0 = Returns 1
  /\ hash std_hash (S fuel) key 1 = Returns 0.
Proof.
  split.
  - unfold hash. destruct fuel; reflexivity.
  - unfold hash.
    set (key_val := (std_hash key * 2862933555777941757 + 1) mod 2 ^ 64).
    change (hash_loop (S fuel) 1 1 0 (std_hash key))
      with (match next_j 0 key_val with
            | Some j => hash_loop fuel 1 0 j key_val
            | None => Undefined
            end).
    destruct (first_candidate key_val) as (j & Hj & Hr);
      [apply Z.mod_pos_bound; lia|].
    rewrite Hj.
    destruct fuel; cbn [hash_loop];
      (replace (j <? 1) with false by (symmetry; apply Z.ltb_ge; lia));
      reflexivity.
Qed.
End Hash.

(** X15.  Where the conversion to [uint32_t] is defined, the candidate
    index of [hash] grows with every iteration and stays a [uint32_t]. *)
Theorem candidate_increases b key_val j :
  0 <= b < 2 ^ 32 - 1 -> 0 <= key_val < 2 ^ 64 ->
  next_j b key_val = Some j -> b < j < 2 ^ 32.
Proof.
  intros Hb Hk Hnext. split.
  - apply (next_j_increases b key_val j Hb Hk Hnext).
  - apply next_j_range in Hnext. lia.
Qed.

(** X18.  The two candidate buckets of a fingerprint are each other's
    alternates: among 32-bit indices, [fingerprintComplement] takes [i] to
    [i'] exactly when it takes [i'] to [i]. *)
Theorem complement_symmetric i i' fp :
  0 <= i < 2 ^ 32 -> 0 <= i' < 2 ^ 32 ->
  fingerprintComplement i fp = i' <-> fingerprintComplement i' fp = i.
Proof.
  intros Hi Hi'. split; intros <-;
    rewrite fingerprintComplement_twice; apply Z.mod_small; assumption.
Qed.

(** X19.  From one index, different fingerprints lead to different
    alternates: for [uint32_t] fingerprints [fingerprintComplement index]
    is injective, and the alternate of an index below 2^32 is the index
    itself only for the fingerprint 0. *)
Theorem complement_separates index fp fp' :
  0 <= fp < 2 ^ 32 -> 0 <= fp' < 2 ^ 32 ->
  (fingerprintComplement index fp = fingerprintComplement index fp'
   -> fp = fp')
  /\ (0 <= index < 2 ^ 32 ->
      (fingerprintComplement index fp = index <-> fp = 0)).
Proof.
  intros Hfp Hfp'.
  assert (Hinj : forall a b, 0 <= a < 2 ^ 32 -> 0 <= b < 2 ^ 32 ->
            fingerprintComplement index a = fingerprintComplement index b ->
            a = b).
  { intros a b Ha Hb Heq.
    pose proof (complement_xor index a) as Hxa.
    pose proof (complement_xor index b) as Hxb.
    rewrite Heq, Hxb in Hxa. apply scramble_inj in Hxa.
    rewrite !Z.mod_small in Hxa by assumption. congruence. }
  split; [apply Hinj; assumption|].
  intros Hi.
  assert (H0 : fingerprintComplement index 0 = index).
  { unfold fingerprintComplement. simpl.
    rewrite Z.lxor_0_r. apply Z.mod_small. exact Hi. }
  split.
  - intros Heq. apply Hinj; [assumption | lia | congruence].
  - intros ->. exact H0.
Qed.

End HashExtras.

Module HashExtrasWitnesses.
Import HashFunction HashExtras.

Lemma hash_run_below_u32_witness :
  hash identity_hash 20 2 8 = hash identity_hash 8 2 8
  /\ hash identity_hash 20 2 8 = Returns 6.
Proof.
  destruct (hash_run_below_u32 identity_hash 20 2 8) as (Heq & _).
  - lia.
  - vm_compute. repeat constructor.
  - split; [exact Heq | vm_compute; reflexivity].
Defined.

Lemma hash_consistent_witness :
  hash identity_hash 14 12345 1000 = Returns 938
  /\ exists r, hash identity_hash 8 12345 8 = Returns r
               /\ 0 <= r < 8 /\ (938 = r \/ 8 <= 938 < 1000).
Proof.
  assert (H2 : hash identity_hash 1000 12345 1000 = Returns 938)
    by (vm_compute; reflexivity).
  split; [vm_compute; reflexivity|].
  pose proof (hash_consistent identity_hash 8 1000 12345 8 1000) as H.
  rewrite H2 in H. apply H; [lia | lia | | ]; vm_compute; repeat constructor.
Defined.

(** The larger run need not return where the smaller one does: this key
    is placed in bucket 0 among 3 buckets, and among 4 buckets the second
    iteration converts 4294967296.0 to [uint32_t]. *)
Lemma hash_growth_meets_conversion :
  hash identity_hash 3 13766254916247227900 3 = Returns 0
  /\ hash identity_hash 4 13766254916247227900 4 = Undefined.
Proof. vm_compute. split; reflexivity. Qed.

Lemma candidate_increases_witness :
  next_j 5 16133697096952638549 = Some 6 /\ 5 < 6 < 2 ^ 32.
Proof.
  assert (H : next_j 5 16133697096952638549 = Some 6)
    by (vm_compute; reflexivity).
  split; [exact H|].
  apply (candidate_increases 5 16133697096952638549 6); [lia | lia | exact H].
Defined.

Lemma complement_symmetric_witness :
  fingerprintComplement 5 0x2A = 275796599
  <-> fingerprintComplement 275796599 0x2A = 5.
Proof. apply complement_symmetric; lia. Defined.

Lemma complement_separates_witness :
  (fingerprintComplement 5 0x2A = fingerprintComplement 5 0x2B -> 0x2A = 0x2B)
  /\ (fingerprintComplement 5 0x2A = 5 <-> 0x2A = 0).
Proof.
  destruct (complement_separates 5 0x2A 0x2B) as (Hinj & Hfix);
    [lia | lia |].
  split; [exact Hinj | apply Hfix; lia].
Defined.

End HashExtrasWitnesses.

Lemma getFingerprint_range_witness :
  getFingerprint (P := params_4_8) scenario_full 3 2 <= 0xFF.
Proof.
  destruct (getFingerprint_range (P := params_4_8) scenario_full 3 2)
    as (_ & Hmask).
  apply Hmask. discriminate.
Defined.

Lemma accepted_shapes_fit_word_witness :
  (bytes_per_bucket (P := params_4_8) <= 8)%nat
  /\ BitManager.field 8 (load_u64 (P := params_4_8) scenario_empty 3) 3
     = BitManager.read 8 3 (data (P := params_4_8) scenario_empty 3).
Proof.
  destruct (accepted_shapes_fit_word (P := params_4_8) 8 0xFF []
              scenario_empty eq_refl) as (_ & _ & _ & Hle & Hload).
  split; [exact Hle|]. apply (Hload 3%nat 3%nat). cbn. lia.
Defined.

Lemma eviction_undo_witness :
  let r := replacingFingerprintInsertion (P := params_4_8)
             scenario_full 3 0x2E true 7 6 in
  insertFingerprint (P := params_4_8) (snd r) 3 2 (snd (fst r))
  = scenario_full.
Proof.
  apply (eviction_undo (P := params_4_8) scenario_full 3 0x2E 7 6 eq_refl
           scenario_full_allocated scenario_bucket_in_range
           scenario_full_clean scenario_full_is_full).
Defined.
